(** * giffer: an animated-GIF generator for directories of JPEG files

    A shallow embedding of [main.go] and the properties of its pipeline:
    the conversion of a decoded image to a paletted frame, the decoding of
    one file, the directory walk that discovers the source paths, the
    goroutines that fill the frame and delay slots under a semaphore and a
    mutex, and the sequential frame of [main] around them (output-path
    check, argument check, creation of the output file, encoding). *)

From Stdlib Require Import ZArith String Ascii List Bool Lia.
From Stdlib.Strings Require Import Byte.
From stdpp Require Import base tactics option list strings.

#[local] Set Warnings "-register-all".
Local Open Scope Z_scope.

(** ** Images ([image] package)

    [image.Image] is an interface; what [imageToPaletted] observes of a value
    of that type is whether its dynamic type is [*image.Paletted] and, if not,
    its bounds and pixels. A [*image.Paletted] is a pointer and may be nil:
    it is an [option Paletted]. *)

Module image.

Record Point := { X : Z; Y : Z }.

Record Rectangle := { Min : Point; Max : Point }.

Definition ZP : Point := {| X := 0; Y := 0 |}.

Definition Dx (r : Rectangle) : Z := X (Max r) - X (Min r).
Definition Dy (r : Rectangle) : Z := Y (Max r) - Y (Min r).

(** A colour, as the four 16-bit channels [RGBA()] returns. *)
Definition Color : Type := Z * Z * Z * Z.

Record Paletted := {
  Pix : list Z;
  Stride : Z;
  Rect : Rectangle;
  Palette : list Color
}.

Inductive Image :=
| IsPaletted (pm : option Paletted)
| Other (bounds : Rectangle) (at_ : Z -> Z -> Color).

Definition Bounds (img : Image) : Rectangle :=
  match img with
  | IsPaletted (Some pm) => Rect pm
  | IsPaletted None => {| Min := ZP; Max := ZP |}
  | Other b _ => b
  end.

(** [image.NewPaletted(r, p)]: a zeroed pixel buffer of [Dx * Dy] bytes.
    This is the call that returns, on a rectangle whose sides are not
    negative and whose area fits an [int], as the bounds of a decoded JPEG
    are (at most 65535 by 65535); on any other rectangle the real function
    panics, and so does [imageToPaletted]. A panic inside the [image]
    package, the decoder or the quantizer is not part of this model. *)
Definition NewPaletted (r : Rectangle) (p : list Color) : Paletted :=
  {| Pix := repeat 0 (Z.to_nat (Dx r * Dy r));
     Stride := Dx r;
     Rect := r;
     Palette := p |}.

End image.

(** ** Errors and the file system ([os] package)

    The file system is a forest of named roots, each under the name by
    which the program reaches it. A path denotes the node the walk reaches
    under that joined name; a name that is looked up is compared with these
    paths as a string. *)

Inductive Errno := ENOENT | EACCES | ENOTDIR | EISDIR | EEXIST.

#[global] Instance Errno_eq_dec : EqDecision Errno.
Proof. solve_decision. Defined.

(** Go's [error] values, as far as the program tells them apart: an error of
    the operating system on a path, a decoding error, and the sentinel
    [filepath.SkipDir]. *)
Inductive error :=
| PathError (e : Errno)
| FormatError
| SkipDir.

Definition is_SkipDir (err : error) : bool :=
  match err with SkipDir => true | _ => false end.

Inductive Node :=
| Reg (data : option (list byte))
| Dir (entries : option (list (string * Node)))
| Bad (e : Errno).

(** [Reg (Some d)] is a regular file that holds [d] and that the process may
    open; [Reg None] is a regular file it has no permission on: it can be
    seen by [Lstat] and cannot be opened, for reading or for writing.
    [Dir (Some names)] is a directory and its entries; [Dir None] is a
    directory the process has no permission on: its names cannot be listed
    and nothing can be created in it. [Bad e] is a name on which [Lstat]
    fails with [e], and every open with it. *)

Definition FS : Type := list (string * Node).

(** Induction on a node that reaches the entries of a directory. *)
Fixpoint Node_nested_ind (P : Node -> Prop)
    (HReg : forall data, P (Reg data))
    (HBad : forall e, P (Bad e))
    (HNone : P (Dir None))
    (HDir : forall es, Forall (fun e => P e.2) es -> P (Dir (Some es)))
    (n : Node) : P n :=
  match n with
  | Reg data => HReg data
  | Bad e => HBad e
  | Dir None => HNone
  | Dir (Some es) =>
      HDir es
        ((fix go (es : list (string * Node)) : Forall (fun e => P e.2) es :=
            match es with
            | [] => @List.Forall_nil _ _
            | e :: r =>
                @List.Forall_cons _ _ e r
                  (Node_nested_ind P HReg HBad HNone HDir e.2) (go r)
            end) es)
  end.


(** *** [filepath.Clean] and [filepath.Join] *)

Definition IsPathSeparator (c : ascii) : bool := Ascii.eqb c "/".

(** The elements of a path: what lies between its separators. *)
Fixpoint elements (path : string) : list string :=
  match path with
  | EmptyString => [EmptyString]
  | String c r =>
      if IsPathSeparator c then EmptyString :: elements r
      else match elements r with
           | e :: es => String c e :: es
           | [] => [String c EmptyString]
           end
  end.

(** One turn of the loop of [filepath.Clean]; [out] holds the elements kept
    so far, the last one first. An empty element and [.] are dropped; [..]
    removes the element before it, is kept at the head of a path that is
    not rooted, and is dropped at the root. *)
Definition clean_element (rooted : bool) (out : list string) (e : string) : list string :=
  if String.eqb e "" || String.eqb e "." then out
  else if String.eqb e ".." then
    match out with
    | top :: rest => if String.eqb top ".." then e :: out else rest
    | [] => if rooted then [] else [e]
    end
  else e :: out.

Definition join_elements (es : list string) : string :=
  match es with
  | [] => ""
  | e :: r => fold_left (fun acc x => acc +:+ "/" +:+ x) r e
  end.

(** [filepath.Clean]: the shortest path name equivalent to [path] by
    lexical processing; [.] for an empty result. *)
Definition Clean (path : string) : string :=
  let rooted :=
    match path with
    | String c _ => IsPathSeparator c
    | EmptyString => false
    end in
  match rev (fold_left (clean_element rooted) (elements path) []) with
  | [] => if rooted then "/" else "."
  | es => (if rooted then "/" else "") +:+ join_elements es
  end.

(** [filepath.Join dir name], which is [Clean (dir + "/" + name)], for a
    name as a directory listing has them: one element, not empty and not
    [.] or [..]. Cleaning the joined path is then cleaning the directory
    path and adding the name as its last element. *)
Definition Join (dir name : string) : string :=
  let d := Clean dir in
  if String.eqb d "." then name
  else if String.eqb d "/" then d +:+ name
  else d +:+ "/" +:+ name.

Fixpoint find_node (p : string) (n : Node) (target : string) : option Node :=
  if String.eqb p target then Some n
  else match n with
       | Dir (Some es) =>
           (fix go (es : list (string * Node)) : option Node :=
              match es with
              | [] => None
              | (name, c) :: r =>
                  match find_node (Join p name) c target with
                  | Some x => Some x
                  | None => go r
                  end
              end) es
       | _ => None
       end.

Fixpoint fs_find (fs : FS) (target : string) : option Node :=
  match fs with
  | [] => None
  | (p, n) :: r =>
      match find_node p n target with
      | Some x => Some x
      | None => fs_find r target
      end
  end.

Fixpoint set_node (p : string) (n : Node) (target : string) (new : Node) : Node :=
  if String.eqb p target then new
  else match n with
       | Dir (Some es) =>
           Dir (Some ((fix go (es : list (string * Node)) : list (string * Node) :=
                         match es with
                         | [] => []
                         | (name, c) :: r =>
                             (name, set_node (Join p name) c target new) :: go r
                         end) es))
       | _ => n
       end.

(** Replace the node at [target] if there is one, add a new root otherwise. *)
Definition fs_set (fs : FS) (target : string) (new : Node) : FS :=
  match fs_find fs target with
  | Some _ => map (fun '(p, n) => (p, set_node p n target new)) fs
  | None => fs ++ [(target, new)]
  end.

(** The directory part and the last element of a name, split at its last
    separator; [None] when the name has no separator. *)
Fixpoint split_last (name : string) : option (string * string) :=
  match name with
  | EmptyString => None
  | String c r =>
      match split_last r with
      | Some (d, b) => Some (String c d, b)
      | None => if IsPathSeparator c then Some (EmptyString, r) else None
      end
  end.

(** The directory of the forest in which a new name is created, and the
    name of the entry: the name must be the join of the two. Any other name
    (one without a separator, or one that is not clean) is relative to the
    working directory, which the forest does not describe. *)
Definition parent_of (name : string) : option (string * string) :=
  match split_last name with
  | Some (d, b) =>
      let dir := if String.eqb d "" then "/" else d in
      if String.eqb (Join dir b) name then Some (dir, b) else None
  | None => None
  end.

(** [Lstat] and the opens on a name that is not in the forest: the
    directory above the name decides the error, when there is one in the
    forest. *)
Definition missing (fs : FS) (name : string) : Errno :=
  match parent_of name with
  | Some (dir, _) =>
      match fs_find fs dir with
      | Some (Reg _) => ENOTDIR
      | Some (Dir None) => EACCES
      | Some (Bad e) => e
      | _ => ENOENT
      end
  | None => ENOENT
  end.

Record FileInfo := { IsDir : bool }.

Definition info_of (n : Node) : FileInfo :=
  {| IsDir := match n with Dir _ => true | _ => false end |}.

(** [os.Lstat]; there are no symbolic links in the model, so [os.Stat] is the
    same function. *)
Definition os_Lstat (fs : FS) (name : string) : option FileInfo * option error :=
  match fs_find fs name with
  | None => (None, Some (PathError (missing fs name)))
  | Some (Bad e) => (None, Some (PathError e))
  | Some n => (Some (info_of n), None)
  end.

Definition os_Stat := os_Lstat.

(** [os.IsNotExist]: false on a nil error. *)
Definition os_IsNotExist (err : option error) : bool :=
  match err with
  | Some (PathError ENOENT) => true
  | _ => false
  end.

(** An open file, as [processJpeg] uses it: the bytes a reader gets, or the
    error of the first read (a directory opens, and then fails to read). *)
Definition File : Type := error + list byte.

Definition os_Open (fs : FS) (name : string) : File + error :=
  match fs_find fs name with
  | None => inr (PathError (missing fs name))
  | Some (Bad e) => inr (PathError e)
  | Some (Reg None) => inr (PathError EACCES)
  | Some (Reg (Some d)) => inl (inr d)
  | Some (Dir None) => inr (PathError EACCES)
  | Some (Dir (Some _)) => inl (inl (PathError EISDIR))
  end.

(** Flags of [os.OpenFile], with their values on Linux. *)
Definition O_WRONLY : Z := 0x1.
Definition O_RDWR : Z := 0x2.
Definition O_CREATE : Z := 0x40.
Definition O_EXCL : Z := 0x80.
Definition O_TRUNC : Z := 0x200.
Definition ModePerm : Z := 0x1ff.

Definition has_flag (flag bit : Z) : bool := negb (Z.land flag bit =? 0).

(** The creation of a name that does not exist. Below a directory of the
    forest the new file is a new entry of that directory, which must exist,
    be a directory and allow it. A name relative to the working directory
    becomes a new root; that such a name cannot be created (the working
    directory does not allow it) is a root [Bad ENOENT] under that name. *)
Definition create (fs : FS) (name : string) : FS + error :=
  match parent_of name with
  | None => inl (fs_set fs name (Reg (Some [])))
  | Some (dir, base) =>
      match fs_find fs dir with
      | Some (Dir (Some names)) =>
          if String.eqb base "" then inr (PathError EISDIR)
          else inl (fs_set fs dir (Dir (Some (names ++ [(base, Reg (Some []))]))))
      | _ => inr (PathError (missing fs name))
      end
  end.

(** [os.OpenFile name flag perm]: the file system after the call, or the
    error. Without [O_CREATE] a missing file is an error; with [O_CREATE] it
    is created empty, when its directory allows it; [O_CREATE] with [O_EXCL]
    refuses a name that exists; a file the process has no permission on is
    not opened; [O_TRUNC] empties an existing regular file. *)
Definition os_OpenFile (fs : FS) (name : string) (flag perm : Z) : FS + error :=
  match fs_find fs name with
  | None =>
      if has_flag flag O_CREATE then create fs name
      else inr (PathError (missing fs name))
  | Some (Bad e) => inr (PathError e)
  | Some (Dir listing) =>
      if has_flag flag O_CREATE && has_flag flag O_EXCL then inr (PathError EEXIST)
      else if has_flag flag O_WRONLY || has_flag flag O_RDWR then inr (PathError EISDIR)
      else match listing with
           | None => inr (PathError EACCES)
           | Some _ => inl fs
           end
  | Some (Reg None) =>
      if has_flag flag O_CREATE && has_flag flag O_EXCL then inr (PathError EEXIST)
      else inr (PathError EACCES)
  | Some (Reg (Some _)) =>
      if has_flag flag O_CREATE && has_flag flag O_EXCL then inr (PathError EEXIST)
      else if has_flag flag O_TRUNC then inl (fs_set fs name (Reg (Some [])))
      else inl fs
  end.

(** Writing [new] at offset 0 of a file that holds [old]: bytes of [old]
    beyond the length of [new] stay. *)
Definition overwrite (old new : list byte) : list byte :=
  new ++ drop (length new) old.

Definition fs_write (fs : FS) (name : string) (new : list byte) : FS :=
  match fs_find fs name with
  | Some (Reg (Some old)) => fs_set fs name (Reg (Some (overwrite old new)))
  | Some (Reg None) => fs_set fs name (Reg (Some new))
  | _ => fs
  end.

(** ** Path names ([path/filepath] and [strings] packages) *)

(** The loop of [filepath.Ext], from the last byte of the path backwards:
    [suffix] is what has been passed over. *)
Fixpoint Ext_loop (rev_path suffix : list ascii) : list ascii :=
  match rev_path with
  | [] => []
  | c :: r =>
      if IsPathSeparator c then []
      else if Ascii.eqb c "." then c :: suffix
      else Ext_loop r (c :: suffix)
  end.

Definition Ext (path : string) : string :=
  string_of_list_ascii (Ext_loop (rev (list_ascii_of_string path)) []).

Fixpoint strip_prefix (s prefix : string) : option string :=
  match prefix, s with
  | EmptyString, _ => Some s
  | String p ps, String c cs => if Ascii.eqb p c then strip_prefix cs ps else None
  | String _ _, EmptyString => None
  end.

Definition TrimPrefix (s prefix : string) : string :=
  match strip_prefix s prefix with
  | Some r => r
  | None => s
  end.

Definition to_lower (c : ascii) : ascii :=
  let n := nat_of_ascii c in
  if (65 <=? n)%nat && (n <=? 90)%nat then ascii_of_nat (n + 32) else c.

(** [strings.EqualFold] against an ASCII word made of letters whose only case
    variants are ASCII ([jpg], [jpeg]): equality of the lower-cased bytes. *)
Fixpoint EqualFold (s t : string) : bool :=
  match s, t with
  | EmptyString, EmptyString => true
  | String a s', String b t' => Ascii.eqb (to_lower a) (to_lower b) && EqualFold s' t'
  | _, _ => false
  end.

(** ** [filepath.Walk]

    The callback gets the path, the [FileInfo] (nil when [Lstat] failed) and
    the error met on that path; it returns an error or nil, and the state it
    has built. [None] is a run-time panic inside the callback. The names of
    a directory are listed in the order the tree holds them. This is [walk]
    as the standard library has it now; the earlier one calls the callback
    a second time on a directory it cannot list. *)

Section Walk.

Context {S : Type}.
Variable walkFn : string -> option FileInfo -> option error -> S -> option (option error * S).

Fixpoint walk (path : string) (n : Node) (st : S) : option (option error * S) :=
  match n with
  | Bad e => walkFn path None (Some (PathError e)) st
  | Reg _ => walkFn path (Some (info_of n)) None st
  | Dir listing =>
      let err :=
        match listing with
        | None => Some (PathError EACCES)
        | Some _ => None
        end in
      match walkFn path (Some (info_of n)) err st with
      | None => None
      | Some (err1, st1) =>
          match listing, err1 with
          | Some names, None =>
              (fix each (names : list (string * Node)) (st : S) : option (option error * S) :=
                 match names with
                 | [] => Some (None, st)
                 | (name, c) :: rest =>
                     let filename := Join path name in
                     match c with
                     | Bad e =>
                         match walkFn filename None (Some (PathError e)) st with
                         | None => None
                         | Some (Some err, st') =>
                             if is_SkipDir err then each rest st' else Some (Some err, st')
                         | Some (None, st') => each rest st'
                         end
                     | _ =>
                         match walk filename c st with
                         | None => None
                         | Some (Some err, st') =>
                             if IsDir (info_of c) && is_SkipDir err then each rest st'
                             else Some (Some err, st')
                         | Some (None, st') => each rest st'
                         end
                     end
                 end) names st1
          | _, _ => Some (err1, st1)
          end
      end
  end.

Definition Walk (fs : FS) (root : string) (st : S) : option (option error * S) :=
  let r :=
    match fs_find fs root with
    | None => walkFn root None (Some (PathError (missing fs root))) st
    | Some n => walk root n st
    end in
  match r with
  | Some (Some SkipDir, st') => Some (None, st')
  | _ => r
  end.

End Walk.

(** ** Output of the program: standard output and the logger

    The fields attached to a log entry are left out; an entry at debug level
    is emitted only in debug mode ([logrus.SetLevel(logrus.DebugLevel)]). *)

Inductive Level := ErrorLevel | InfoLevel | DebugLevel.

Inductive Event :=
| Stdout (s : string)
| Usage
| Log (lvl : Level) (msg : string).

Definition logrus (verbose : bool) (lvl : Level) (msg : string) : list Event :=
  match lvl with
  | DebugLevel => if verbose then [Log lvl msg] else []
  | _ => [Log lvl msg]
  end.

Definition MYNAME := "giffer".
Definition VERSION := "1.0".
Definition OUTFILE := "output.gif".

(** ** The codecs

    The JPEG decoder, the median-cut quantizer and the GIF encoder are
    libraries: the program is verified for every value the decoder and the
    quantizer may return, and for an encoder that returns nil, returns an
    error or panics (it panics on a nil frame). A panic inside the decoder
    or the quantizer is not part of the model. *)

Inductive EncodeResult :=
| Encoded (written : list byte)
| EncodeError (written : list byte)
| EncodePanic (written : list byte).

Record GIF := {
  Image : list (option image.Paletted);
  Delay : list Z
}.

(** ** The goroutines of [main]

    One goroutine per discovered path runs the body of the [go func] of
    [main]; [pc] is the point it has reached. The steps of a goroutine are:
    [sem.Acquire], [processJpeg], [mutex.Lock], the write of the frame slot,
    the write of the delay slot, [bar.Increment] with [mutex.Unlock], and
    the two deferred calls [sem.Release] and [wg.Done]. *)

Inductive pc :=
| Spawned
| Acquired
| Decoded (err : option error) (frame : option image.Paletted)
| Locked (frame : option image.Paletted)
| WroteImage
| WroteDelay
| Unlocked
| Released
| Done.

(** A goroutine holds its arguments [jpeg] and [i] ([i] is its position in
    [tasks]). *)
Record Task := { jpeg : string; at_pc : pc }.

Record Pipeline := {
  gifInfo : GIF;
  sem_cur : Z;
  mutex : bool;
  wg : Z;
  bar : Z;
  tasks : list Task;
  joined : bool;
  crashed : bool;
  events : list Event;
  decoded : list string
}.

Inductive tid := Main | Worker (i : nat).

(** ** The command line and the outcome of [main]

    The flags and arguments as [flag.Parse] leaves them. *)

Record Flags := {
  verbose : bool;
  outfile : string;
  delayMs : Z;
  version : bool;
  args : list string
}.

(** How the process ends: [main] returns, a panic, or [wg.Wait()] still
    blocked when the schedule is used up. The outcome also holds the file
    system the run leaves, what it printed and logged, and the paths it
    passed to [processJpeg]. *)
Inductive Exit := Returned | Panicked | Blocked.

Record Outcome := {
  exit : Exit;
  fs_after : FS;
  output : list Event;
  opened : list string
}.


(** ** Sample data

    A decoder that accepts the files starting with byte [0xff], a quantizer
    that leaves the destination as it is, an encoder that panics on a nil
    frame and writes a three-byte signature otherwise, and small file
    systems, used to run the definitions on concrete inputs. *)

Module Sample.

Definition unit_rect : image.Rectangle :=
  {| image.Min := image.ZP; image.Max := {| image.X := 2; image.Y := 1 |} |}.

Definition decode (b : list byte) : image.Image + error :=
  match b with
  | xff :: _ => inl (image.Other unit_rect (fun _ _ => (0, 0, 0, 0)))
  | _ => inr FormatError
  end.

Definition quantize (n : Z) (dst : image.Paletted) (r : image.Rectangle)
    (src : image.Image) (sp : image.Point) : image.Paletted := dst.

Definition encode (g : GIF) : EncodeResult :=
  if forallb (fun o => match o with Some _ => true | None => false end) (Image g)
  then Encoded [x47; x49; x46]
  else EncodePanic [].

Definition frame : image.Paletted := image.NewPaletted unit_rect [].

(** Two valid files and a corrupt one, and a file that is not a JPEG. *)
Definition pics : FS :=
  [("pics", Dir (Some [("a.jpg", Reg (Some [xff; xd8]));
                       ("b.JPEG", Reg (Some [x00]));
                       ("notes.txt", Reg (Some []));
                       ("sub", Dir (Some [("c.jpeg", Reg (Some [xff]))]))]))].

(** Three valid files next to a directory that cannot be listed. *)
Definition good : FS :=
  [("pics", Dir (Some [("a.jpg", Reg (Some [xff; xd8]));
                       ("locked", Dir None);
                       ("b.JPG", Reg (Some [xff]));
                       ("sub", Dir (Some [("c.jpeg", Reg (Some [xff]))]))]))].

(** A root that is a regular file, and a root that cannot be listed. *)
Definition single : FS := [("shot.jpg", Reg (Some [xff; xd8]))].

Definition locked_root : FS := [("pics", Dir None)].

Definition pics_paths : list string := ["pics/a.jpg"; "pics/b.JPEG"; "pics/sub/c.jpeg"].

Definition good_paths : list string := ["pics/a.jpg"; "pics/b.JPG"; "pics/sub/c.jpeg"].

(** The status check of the output path is denied. *)
Definition denied : FS := [("output.gif", Bad EACCES)].

Definition empty_dir : FS := [("pics", Dir (Some [("notes.txt", Reg (Some []))]))].

Definition flags : Flags :=
  {| verbose := false; outfile := OUTFILE; delayMs := 100;
     version := false; args := ["pics"] |}.

(** Three goroutines, all started and then taking turns, the last one
    first; a goroutine that is blocked when its turn comes loses the turn. *)
Definition sched : list tid :=
  [Main; Main; Main]
  ++ concat (replicate 16 [Worker 2; Worker 0; Worker 1])
  ++ [Main].

(** The goroutines one after the other, as with a single processing unit. *)
Definition serial : list tid :=
  [Main; Main; Main]
  ++ replicate 8 (Worker 0) ++ replicate 8 (Worker 1) ++ replicate 8 (Worker 2)
  ++ [Main].

(** All started, two inside the region and the third one waiting for a
    unit of the semaphore. *)
Definition crowded : list tid := [Main; Main; Main; Worker 0; Worker 1; Worker 2].

(** Another process creates the output file while the images are
    processed. *)
Definition racing (fs : FS) : FS := fs ++ [("output.gif", Reg (Some [x01; x02; x03; x04]))].

End Sample.

Section Giffer.

(** [jpeg.Decode] on the bytes of a file: an image or an error. *)
Variable jpeg_Decode : list byte -> image.Image + error.

(** [(&gogif.MedianCutQuantizer{NumColor: n}).Quantize(dst, r, src, sp)]:
    the destination after the call. *)
Variable Quantize :
  Z -> image.Paletted -> image.Rectangle -> image.Image -> image.Point -> image.Paletted.

(** [gif.EncodeAll] and the bytes it has written to its writer when it
    returns nil, returns an error, or panics. *)
Variable gif_EncodeAll : GIF -> EncodeResult.

(** [runtime.NumCPU()]. *)
Variable numcpus : Z.

(** Converts an image to an [image.Paletted] with 256 colors. *)
Definition imageToPaletted (img : image.Image) : option image.Paletted :=
  match img with
  | image.IsPaletted pm => pm
  | _ =>
      let b := image.Bounds img in
      let pm := image.NewPaletted b [] in
      Some (Quantize 256 pm b img image.ZP)
  end.

Definition processJpeg (fs : FS) (path : string)
  : list Event * (option error * option image.Paletted) :=
  match os_Open fs path with
  | inr err => ([Log ErrorLevel "While opening file"], (Some err, None))
  | inl f =>
      let img :=
        match f with
        | inl err => inr err
        | inr bytes => jpeg_Decode bytes
        end in
      match img with
      | inr err => ([Log ErrorLevel "while decoding file"], (Some err, None))
      | inl img => ([], (None, imageToPaletted img))
      end
  end.

(** *** The walk callback of [main] *)

Definition is_jpeg (path : string) : bool :=
  let extension := TrimPrefix (Ext path) "." in
  EqualFold extension "jpg" || EqualFold extension "jpeg".

(** The state of the callback is the slice [imgPaths] it appends to and the
    log. The callback never looks at [err]; [info.IsDir()] on a nil [info]
    is a nil dereference. *)
Definition collect (verbose : bool) (path : string) (info : option FileInfo)
    (err : option error) (st : list string * list Event)
  : option (option error * (list string * list Event)) :=
  match info with
  | None => None
  | Some info =>
      if IsDir info then
        Some (None, (st.1, st.2 ++ logrus verbose DebugLevel ("skipping dir " +:+ path)))
      else if negb (is_jpeg path) then
        Some (None, (st.1, st.2 ++ logrus verbose DebugLevel "Skipping non jpeg file"))
      else
        Some (None, (st.1 ++ [path], st.2 ++ logrus verbose DebugLevel "found file"))
  end.

(** *** The steps of the goroutines *)

(** The quotient of [delayMs] by 10, converted to [int]: [delayMs] is a
    64-bit [uint], [int] is 64-bit. *)
Definition uint_div (a b : Z) : Z := (a / b) mod 2 ^ 64.
Definition int_of_uint (u : Z) : Z := (u + 2 ^ 63) mod 2 ^ 64 - 2 ^ 63.
Definition delay_ticks (delayMs : Z) : Z := int_of_uint (uint_div delayMs 10).

Section Run.

Variable verbose : bool.
Variable delayMs : Z.
Variable fs : FS.
Variable imgPaths : list string.

(** The state after [gifInfo.Image = make(.., len(imgPaths))] and
    [gifInfo.Delay = make(.., len(imgPaths))], before the loop. *)
Definition pipeline_init : Pipeline :=
  {| gifInfo := {| Image := replicate (length imgPaths) None;
                   Delay := replicate (length imgPaths) 0 |};
     sem_cur := 0;
     mutex := false;
     wg := 0;
     bar := 0;
     tasks := [];
     joined := false;
     crashed := false;
     events := [Log InfoLevel "Parallel processing jpeg files"];
     decoded := [] |}.

Definition set_pc (i : nat) (p : pc) (ts : list Task) : list Task :=
  alter (fun t => {| jpeg := jpeg t; at_pc := p |}) i ts.

Definition crash (s : Pipeline) : Pipeline :=
  {| gifInfo := gifInfo s; sem_cur := sem_cur s; mutex := mutex s; wg := wg s;
     bar := bar s; tasks := tasks s; joined := joined s; crashed := true;
     events := events s; decoded := decoded s |}.

(** The main goroutine: one turn of the [for] loop ([wg.Add(1)] and the
    [go] statement), then [wg.Wait()], which returns when the counter is
    zero. *)
Definition step_main (s : Pipeline) : option Pipeline :=
  if joined s then None
  else match imgPaths !! length (tasks s) with
       | Some path =>
           Some {| gifInfo := gifInfo s; sem_cur := sem_cur s; mutex := mutex s;
                   wg := wg s + 1; bar := bar s;
                   tasks := tasks s ++ [{| jpeg := path; at_pc := Spawned |}];
                   joined := false; crashed := crashed s;
                   events := events s; decoded := decoded s |}
       | None =>
           if wg s =? 0 then
             Some {| gifInfo := gifInfo s; sem_cur := sem_cur s; mutex := mutex s;
                     wg := wg s; bar := bar s; tasks := tasks s;
                     joined := true; crashed := crashed s;
                     events := events s; decoded := decoded s |}
           else None
       end.

(** The next step of goroutine [i]; [None] when it is blocked (on the
    semaphore or on the mutex), has returned, or has not been started. *)
Definition step_task (i : nat) (s : Pipeline) : option Pipeline :=
  match tasks s !! i with
  | None => None
  | Some t =>
      match at_pc t with
      | Spawned =>
          if sem_cur s <? numcpus then
            Some {| gifInfo := gifInfo s; sem_cur := sem_cur s + 1; mutex := mutex s;
                    wg := wg s; bar := bar s; tasks := set_pc i Acquired (tasks s);
                    joined := joined s; crashed := crashed s;
                    events := events s ++ logrus verbose DebugLevel "processing";
                    decoded := decoded s |}
          else None
      | Acquired =>
          let '(ev, (err, frame)) := processJpeg fs (jpeg t) in
          let ev' :=
            match err with
            | Some _ => [Log ErrorLevel "while processing jpeg file"]
            | None => []
            end in
          Some {| gifInfo := gifInfo s; sem_cur := sem_cur s; mutex := mutex s;
                  wg := wg s; bar := bar s;
                  tasks := set_pc i (Decoded err frame) (tasks s);
                  joined := joined s; crashed := crashed s;
                  events := events s ++ ev ++ ev';
                  decoded := decoded s ++ [jpeg t] |}
      | Decoded _ frame =>
          if mutex s then None
          else
            Some {| gifInfo := gifInfo s; sem_cur := sem_cur s; mutex := true;
                    wg := wg s; bar := bar s; tasks := set_pc i (Locked frame) (tasks s);
                    joined := joined s; crashed := crashed s;
                    events := events s; decoded := decoded s |}
      | Locked frame =>
          if decide (i < length (Image (gifInfo s)))%nat then
            Some {| gifInfo := {| Image := <[i := frame]> (Image (gifInfo s));
                                  Delay := Delay (gifInfo s) |};
                    sem_cur := sem_cur s; mutex := mutex s;
                    wg := wg s; bar := bar s; tasks := set_pc i WroteImage (tasks s);
                    joined := joined s; crashed := crashed s;
                    events := events s; decoded := decoded s |}
          else Some (crash s)
      | WroteImage =>
          if decide (i < length (Delay (gifInfo s)))%nat then
            Some {| gifInfo := {| Image := Image (gifInfo s);
                                  Delay := <[i := delay_ticks delayMs]> (Delay (gifInfo s)) |};
                    sem_cur := sem_cur s; mutex := mutex s;
                    wg := wg s; bar := bar s; tasks := set_pc i WroteDelay (tasks s);
                    joined := joined s; crashed := crashed s;
                    events := events s; decoded := decoded s |}
          else Some (crash s)
      | WroteDelay =>
          Some {| gifInfo := gifInfo s; sem_cur := sem_cur s; mutex := false;
                  wg := wg s; bar := bar s + 1; tasks := set_pc i Unlocked (tasks s);
                  joined := joined s; crashed := crashed s;
                  events := events s; decoded := decoded s |}
      | Unlocked =>
          if sem_cur s - 1 <? 0 then Some (crash s)
          else
            Some {| gifInfo := gifInfo s; sem_cur := sem_cur s - 1; mutex := mutex s;
                    wg := wg s; bar := bar s; tasks := set_pc i Released (tasks s);
                    joined := joined s; crashed := crashed s;
                    events := events s; decoded := decoded s |}
      | Released =>
          if wg s - 1 <? 0 then Some (crash s)
          else
            Some {| gifInfo := gifInfo s; sem_cur := sem_cur s; mutex := mutex s;
                    wg := wg s - 1; bar := bar s; tasks := set_pc i Done (tasks s);
                    joined := joined s; crashed := crashed s;
                    events := events s; decoded := decoded s |}
      | Done => None
      end
  end.

(** A panic ends the process: nothing steps after it. *)
Definition step (t : tid) (s : Pipeline) : option Pipeline :=
  if crashed s then None
  else match t with
       | Main => step_main s
       | Worker i => step_task i s
       end.

(** Running a schedule; a thread that cannot step when its turn comes is
    passed over. *)
Fixpoint run (sched : list tid) (s : Pipeline) : Pipeline :=
  match sched with
  | [] => s
  | t :: rest =>
      match step t s with
      | Some s' => run rest s'
      | None => run rest s
      end
  end.

(** The states the pipeline can be in. *)
Inductive reachable : Pipeline -> Prop :=
| reachable_init : reachable pipeline_init
| reachable_step t s s' : reachable s -> step t s = Some s' -> reachable s'.

(** **** What the proofs say about a state *)

(** The frame [processJpeg] returns for a path: nil when it fails. *)
Definition frame_of (path : string) : option image.Paletted :=
  (processJpeg fs path).2.2.

Definition decode_fails (path : string) : Prop :=
  (processJpeg fs path).2.1 ≠ None.

(** Between [sem.Acquire] and the deferred [sem.Release]: the region that
    holds [processJpeg], that is decoding and quantization. *)
Definition in_region (p : pc) : bool :=
  match p with
  | Acquired | Decoded _ _ | Locked _ | WroteImage | WroteDelay | Unlocked => true
  | _ => false
  end.

(** Between [mutex.Lock] and [mutex.Unlock]. *)
Definition in_mutex (p : pc) : bool :=
  match p with
  | Locked _ | WroteImage | WroteDelay => true
  | _ => false
  end.

(** Before the deferred [wg.Done]. *)
Definition live (p : pc) : bool :=
  match p with
  | Done => false
  | _ => true
  end.

Definition wrote_image (p : pc) : bool :=
  match p with
  | WroteImage | WroteDelay | Unlocked | Released | Done => true
  | _ => false
  end.

Definition wrote_delay (p : pc) : bool :=
  match p with
  | WroteDelay | Unlocked | Released | Done => true
  | _ => false
  end.

Fixpoint count (P : pc -> bool) (ts : list Task) : Z :=
  match ts with
  | [] => 0
  | t :: r => Z.b2z (P (at_pc t)) + count P r
  end.

(** What goroutine [i] knows and has done, by the point it has reached. *)
Definition task_ok (s : Pipeline) (i : nat) (t : Task) : Prop :=
  imgPaths !! i = Some (jpeg t)
  ∧ match at_pc t with
    | Decoded err frame => (err, frame) = (processJpeg fs (jpeg t)).2
    | Locked frame => frame = frame_of (jpeg t)
    | _ => True
    end
  ∧ (wrote_image (at_pc t) = true -> Image (gifInfo s) !! i = Some (frame_of (jpeg t)))
  ∧ (wrote_delay (at_pc t) = true -> Delay (gifInfo s) !! i = Some (delay_ticks delayMs)).

Record inv (s : Pipeline) : Prop := {
  inv_crashed : crashed s = false;
  inv_image : length (Image (gifInfo s)) = length imgPaths;
  inv_delay : length (Delay (gifInfo s)) = length imgPaths;
  inv_tasks : forall i t, tasks s !! i = Some t -> task_ok s i t;
  inv_sem : sem_cur s = count in_region (tasks s);
  inv_budget : sem_cur s <= Z.max 0 numcpus;
  inv_mutex : Z.b2z (mutex s) = count in_mutex (tasks s);
  inv_wg : wg s = count live (tasks s);
  inv_joined : joined s = true ->
               length (tasks s) = length imgPaths ∧ count live (tasks s) = 0
}.

(** The steps a goroutine has left, and the steps the whole pipeline has
    left: every step makes it smaller. *)
Definition weight (p : pc) : Z :=
  match p with
  | Spawned => 8
  | Acquired => 7
  | Decoded _ _ => 6
  | Locked _ => 5
  | WroteImage => 4
  | WroteDelay => 3
  | Unlocked => 2
  | Released => 1
  | Done => 0
  end.

Fixpoint total_weight (ts : list Task) : Z :=
  match ts with
  | [] => 0
  | t :: r => weight (at_pc t) + total_weight r
  end.

Definition measure (s : Pipeline) : Z :=
  total_weight (tasks s)
  + 9 * (Z.of_nat (length imgPaths) - Z.of_nat (length (tasks s)))
  + (if joined s then 0 else 1).

(** The points from which the next step is never blocked. *)
Definition unblocked (p : pc) : bool :=
  match p with
  | Acquired | Locked _ | WroteImage | WroteDelay | Unlocked | Released => true
  | _ => false
  end.

Definition is_decoded (p : pc) : bool :=
  match p with Decoded _ _ => true | _ => false end.

Definition is_spawned (p : pc) : bool :=
  match p with Spawned => true | _ => false end.

End Run.

(** *** [main]

    [other] is what other processes do to the file system while the images
    are processed (the identity when nothing else touches it); [sched] is
    the order in which the scheduler lets the goroutines step. *)

Definition out_flags : Z := Z.lor O_CREATE O_WRONLY.

(** What [main] prints first in debug mode. *)
Definition startup (f : Flags) : list Event :=
  if verbose f then [Stdout "Starting in debug mode..."] else [].

Definition written (r : EncodeResult) : list byte :=
  match r with
  | Encoded w | EncodeError w | EncodePanic w => w
  end.

Definition main (f : Flags) (other : FS -> FS) (sched : list tid) (fs : FS) : Outcome :=
  let ev0 := startup f in
  if version f then
    {| exit := Returned; fs_after := fs;
       output := ev0 ++ [Stdout (MYNAME +:+ " -- v" +:+ VERSION)]; opened := [] |}
  else if negb (os_IsNotExist (os_Stat fs (outfile f)).2) then
    {| exit := Returned; fs_after := fs;
       output := ev0 ++ [Log ErrorLevel "output file already exists"]; opened := [] |}
  else
    match args f with
    | [] =>
        {| exit := Returned; fs_after := fs; output := ev0 ++ [Usage]; opened := [] |}
    | _ :: _ :: _ =>
        {| exit := Returned; fs_after := fs;
           output := ev0 ++ [Log ErrorLevel "wrong number of arguments"]; opened := [] |}
    | [dirname] =>
        match Walk (collect (verbose f)) fs dirname ([], ev0) with
        | None =>
            {| exit := Panicked; fs_after := fs; output := ev0; opened := [] |}
        | Some (Some err, (_, ev)) =>
            {| exit := Returned; fs_after := fs;
               output := ev ++ [Log ErrorLevel "error while looking for jpeg files"];
               opened := [] |}
        | Some (None, (imgPaths, ev)) =>
            if (length imgPaths =? 0)%nat then
              {| exit := Returned; fs_after := fs;
                 output := ev ++ [Log ErrorLevel "could not find any jpeg files at provided path"];
                 opened := [] |}
            else
              let s := run (verbose f) (delayMs f) fs imgPaths sched
                         (pipeline_init imgPaths) in
              if crashed s then
                {| exit := Panicked; fs_after := fs;
                   output := ev ++ events s; opened := decoded s |}
              else if negb (joined s) then
                {| exit := Blocked; fs_after := fs;
                   output := ev ++ events s; opened := decoded s |}
              else
                let fs1 := other fs in
                match os_OpenFile fs1 (outfile f) out_flags ModePerm with
                | inr err =>
                    {| exit := Returned; fs_after := fs1;
                       output := ev ++ events s ++ [Log ErrorLevel "While creating gif file"];
                       opened := decoded s |}
                | inl fs2 =>
                    match gif_EncodeAll (gifInfo s) with
                    | Encoded w =>
                        {| exit := Returned; fs_after := fs_write fs2 (outfile f) w;
                           output := ev ++ events s; opened := decoded s |}
                    | EncodeError w =>
                        {| exit := Returned; fs_after := fs_write fs2 (outfile f) w;
                           output := ev ++ events s
                                     ++ [Log ErrorLevel "While encoding gif file"];
                           opened := decoded s |}
                    | EncodePanic w =>
                        {| exit := Panicked; fs_after := fs_write fs2 (outfile f) w;
                           output := ev ++ events s; opened := decoded s |}
                    end
                end
        end
    end.

(** The outcome of a run that is refused at the check of the output path. *)
Definition refused (f : Flags) (fs : FS) : Outcome :=
  {| exit := Returned; fs_after := fs;
     output := startup f ++ [Log ErrorLevel "output file already exists"];
     opened := [] |}.

(** *** What the proofs say about the walk *)

(** The paths the walk collects below a node, when [Lstat] succeeds on
    every name: the names with a JPEG extension that are not directories,
    in the order of the walk. *)
Fixpoint paths_of (path : string) (n : Node) : list string :=
  match n with
  | Reg _ => if is_jpeg path then [path] else []
  | Bad _ => []
  | Dir None => []
  | Dir (Some names) =>
      (fix each (names : list (string * Node)) : list string :=
         match names with
         | [] => []
         | (name, c) :: rest => paths_of (Join path name) c ++ each rest
         end) names
  end.

Fixpoint no_bad (n : Node) : bool :=
  match n with
  | Reg _ => true
  | Bad _ => false
  | Dir None => true
  | Dir (Some names) =>
      (fix each (names : list (string * Node)) : bool :=
         match names with
         | [] => true
         | (_, c) :: rest => no_bad c && each rest
         end) names
  end.

(** The root can be traversed: it exists, is a directory and can be
    listed. *)
Definition traversable (fs : FS) (root : string) : bool :=
  match fs_find fs root with
  | Some (Dir (Some _)) => true
  | _ => false
  end.

Definition walk_error {A} (r : option (option error * A)) : bool :=
  match r with
  | Some (Some _, _) => true
  | _ => false
  end.

(** *** What the proofs say about a lookup

    The search of [find_node] among the entries of a directory. *)
Fixpoint find_entries (p : string) (es : list (string * Node)) (target : string)
  : option Node :=
  match es with
  | [] => None
  | (name, c) :: r =>
      match find_node (Join p name) c target with
      | Some x => Some x
      | None => find_entries p r target
      end
  end.

(** *** The pipeline and the output stage of [main] on their own

    Lines 136 to 188 of [main]: what happens once the walk has returned
    [imgPaths] (and the log so far is [ev]). *)
Definition assemble (f : Flags) (other : FS -> FS) (sched : list tid) (fs : FS)
    (imgPaths : list string) (ev : list Event) : Outcome :=
  let s := run (verbose f) (delayMs f) fs imgPaths sched (pipeline_init imgPaths) in
  if crashed s then
    {| exit := Panicked; fs_after := fs; output := ev ++ events s; opened := decoded s |}
  else if negb (joined s) then
    {| exit := Blocked; fs_after := fs; output := ev ++ events s; opened := decoded s |}
  else
    let fs1 := other fs in
    match os_OpenFile fs1 (outfile f) out_flags ModePerm with
    | inr err =>
        {| exit := Returned; fs_after := fs1;
           output := ev ++ events s ++ [Log ErrorLevel "While creating gif file"];
           opened := decoded s |}
    | inl fs2 =>
        match gif_EncodeAll (gifInfo s) with
        | Encoded w =>
            {| exit := Returned; fs_after := fs_write fs2 (outfile f) w;
               output := ev ++ events s; opened := decoded s |}
        | EncodeError w =>
            {| exit := Returned; fs_after := fs_write fs2 (outfile f) w;
               output := ev ++ events s ++ [Log ErrorLevel "While encoding gif file"];
               opened := decoded s |}
        | EncodePanic w =>
            {| exit := Panicked; fs_after := fs_write fs2 (outfile f) w;
               output := ev ++ events s; opened := decoded s |}
        end
    end.

(** *** The earlier [main]

    The [main] of the other revision of the file: it prints [os.Args[0]]
    for the version, has one message for a wrong number of arguments, and
    does not stop when the walk finds no file. *)
Definition main_001 (argv0 : string) (f : Flags) (other : FS -> FS)
    (sched : list tid) (fs : FS) : Outcome :=
  let ev0 := startup f in
  if version f then
    {| exit := Returned; fs_after := fs;
       output := ev0 ++ [Stdout (argv0 +:+ " -- v" +:+ VERSION)]; opened := [] |}
  else if negb (os_IsNotExist (os_Stat fs (outfile f)).2) then
    {| exit := Returned; fs_after := fs;
       output := ev0 ++ [Log ErrorLevel "output file already exists"]; opened := [] |}
  else
    match args f with
    | [dirname] =>
        match Walk (collect (verbose f)) fs dirname ([], ev0) with
        | None =>
            {| exit := Panicked; fs_after := fs; output := ev0; opened := [] |}
        | Some (Some err, (_, ev)) =>
            {| exit := Returned; fs_after := fs;
               output := ev ++ [Log ErrorLevel "error while looking for jpeg files"];
               opened := [] |}
        | Some (None, (imgPaths, ev)) => assemble f other sched fs imgPaths ev
        end
    | _ =>
        {| exit := Returned; fs_after := fs;
           output := ev0 ++ [Log ErrorLevel "you need to specify a single argument as directory"];
           opened := [] |}
    end.

(** *** More of what the proofs say about the pipeline *)

(** The steps a schedule really takes: the turns of blocked or finished
    threads do not count. *)
Fixpoint taken (verbose : bool) (delayMs : Z) (fs : FS) (imgPaths : list string)
    (sched : list tid) (s : Pipeline) : nat :=
  match sched with
  | [] => 0
  | t :: rest =>
      match step verbose delayMs fs imgPaths t s with
      | Some s' => S (taken verbose delayMs fs imgPaths rest s')
      | None => taken verbose delayMs fs imgPaths rest s
      end
  end.

(** [processJpeg] has returned. *)
Definition past_decode (p : pc) : bool :=
  match p with
  | Spawned | Acquired => false
  | _ => true
  end.

(** [bar.Increment] has been called. *)
Definition past_unlock (p : pc) : bool :=
  match p with
  | Unlocked | Released | Done => true
  | _ => false
  end.

Fixpoint tally (P : Task -> bool) (ts : list Task) : Z :=
  match ts with
  | [] => 0
  | t :: r => Z.b2z (P t) + tally P r
  end.

Definition failed (fs : FS) (path : string) : bool :=
  match (processJpeg fs path).2.1 with
  | Some _ => true
  | None => false
  end.

Fixpoint failures (fs : FS) (l : list string) : Z :=
  match l with
  | [] => 0
  | p :: r => Z.b2z (failed fs p) + failures fs r
  end.

Definition is_report (e : Event) : bool :=
  match e with
  | Log ErrorLevel msg => String.eqb msg "while processing jpeg file"
  | _ => false
  end.

Definition is_error (e : Event) : bool :=
  match e with
  | Log ErrorLevel _ => true
  | _ => false
  end.

Fixpoint occurrences (P : Event -> bool) (evs : list Event) : Z :=
  match evs with
  | [] => 0
  | e :: r => Z.b2z (P e) + occurrences P r
  end.

Fixpoint times (path : string) (l : list string) : Z :=
  match l with
  | [] => 0
  | p :: r => Z.b2z (String.eqb p path) + times path r
  end.

(** The books of the pipeline: the progress bar, the paths handed to
    [processJpeg] and the errors logged, against the points the goroutines
    have reached. *)
Record ledger (fs : FS) (s : Pipeline) : Prop := {
  ledger_bar : bar s = count past_unlock (tasks s);
  ledger_decoded : forall path,
    times path (decoded s)
    = tally (fun t => past_decode (at_pc t) && String.eqb (jpeg t) path) (tasks s);
  ledger_reports :
    occurrences is_report (events s)
    = tally (fun t => past_decode (at_pc t) && failed fs (jpeg t)) (tasks s);
  ledger_errors :
    occurrences is_error (events s)
    = 2 * tally (fun t => past_decode (at_pc t) && failed fs (jpeg t)) (tasks s)
}.

(** A state without its log. *)
Definition erase (s : Pipeline) : Pipeline :=
  {| gifInfo := gifInfo s; sem_cur := sem_cur s; mutex := mutex s; wg := wg s;
     bar := bar s; tasks := tasks s; joined := joined s; crashed := crashed s;
     events := []; decoded := decoded s |}.

(** *** More of what the proofs say about the walk *)

Definition lower (s : string) : string :=
  string_of_list_ascii (map to_lower (list_ascii_of_string s)).

Definition plain (c : ascii) : bool :=
  negb (IsPathSeparator c) && negb (Ascii.eqb c ".").

Definition with_verbose (v : bool) (f : Flags) : Flags :=
  {| verbose := v; outfile := outfile f; delayMs := delayMs f;
     version := version f; args := args f |}.

(** ** Proofs: the conversion to a paletted frame *)

(** C8. On an image that is already an [*image.Paletted] the conversion
    returns that very frame, so converting the result of a conversion
    again changes nothing. *)
Theorem imageToPaletted_idempotent :
  (forall pm, imageToPaletted (image.IsPaletted pm) = pm)
  ∧ (forall img,
       imageToPaletted (image.IsPaletted (imageToPaletted img)) = imageToPaletted img).
Proof. split; intros; reflexivity. Qed.

(** ** Proofs: the goroutines *)

Section PipelineProofs.

Variable v : bool.
Variable d : Z.
Variable fs : FS.
Variable paths : list string.

Local Abbreviation step := (step v d fs paths).
Local Abbreviation run := (run v d fs paths).
Local Abbreviation reachable := (reachable v d fs paths).
Local Abbreviation inv := (inv d fs paths).
Local Abbreviation task_ok := (task_ok d fs paths).
Local Abbreviation init := (pipeline_init paths).

(** *** Counting goroutines by the point they have reached *)

Lemma count_app P a b : count P (a ++ b) = count P a + count P b.
Proof. induction a as [|t a IH]; simpl; lia. Qed.

Lemma count_nonneg P ts : 0 <= count P ts.
Proof. induction ts as [|t ts IH]; simpl; [lia|]. destruct (P (at_pc t)); simpl; lia. Qed.

Lemma count_lookup P ts i t :
  ts !! i = Some t -> Z.b2z (P (at_pc t)) <= count P ts.
Proof.
  revert i. induction ts as [|t' ts IH]; intros [|i] H; simplify_eq/=.
  - pose proof (count_nonneg P ts). lia.
  - apply IH in H. destruct (P (at_pc t')); simpl; lia.
Qed.

Lemma count_zero P ts i t :
  count P ts = 0 -> ts !! i = Some t -> P (at_pc t) = false.
Proof.
  intros H0 Hi. pose proof (count_lookup P ts i t Hi).
  destruct (P (at_pc t)); simpl in *; [lia | done].
Qed.

Lemma count_set_pc P i p ts t :
  ts !! i = Some t ->
  count P (set_pc i p ts) = count P ts - Z.b2z (P (at_pc t)) + Z.b2z (P p).
Proof.
  revert i. induction ts as [|t' ts IH]; intros [|i] H; simplify_eq/=.
  - lia.
  - rewrite (IH i H). lia.
Qed.

Lemma total_weight_app a b : total_weight (a ++ b) = total_weight a + total_weight b.
Proof. induction a as [|t a IH]; simpl; lia. Qed.

Lemma total_weight_set_pc i p ts t :
  ts !! i = Some t ->
  total_weight (set_pc i p ts) = total_weight ts - weight (at_pc t) + weight p.
Proof.
  revert i. induction ts as [|t' ts IH]; intros [|i] H; simplify_eq/=.
  - lia.
  - rewrite (IH i H). lia.
Qed.

Lemma lookup_set_pc_eq i p ts t :
  ts !! i = Some t -> set_pc i p ts !! i = Some {| jpeg := jpeg t; at_pc := p |}.
Proof. intros H. unfold set_pc. by rewrite list_lookup_alter_eq, H. Qed.

Lemma lookup_set_pc_ne i j p ts : i ≠ j -> set_pc i p ts !! j = ts !! j.
Proof. intros H. unfold set_pc. by apply list_lookup_alter_ne. Qed.

Lemma length_set_pc i p ts : length (set_pc i p ts) = length ts.
Proof. apply length_alter. Qed.

(** A goroutine that is still running stays where it is when another one
    steps, and what it relies on in the slots is not touched. *)
Lemma task_ok_other s s' i j t :
  i ≠ j ->
  (forall k, k ≠ i -> Image (gifInfo s') !! k = Image (gifInfo s) !! k) ->
  (forall k, k ≠ i -> Delay (gifInfo s') !! k = Delay (gifInfo s) !! k) ->
  task_ok s j t -> task_ok s' j t.
Proof.
  intros Hne HI HD (Hp & Hpc & Him & Hde).
  repeat split; try done.
  - intros H. rewrite HI by done. auto.
  - intros H. rewrite HD by done. auto.
Qed.



Lemma task_ok_gif s s' j t :
  gifInfo s' = gifInfo s -> task_ok s j t -> task_ok s' j t.
Proof. unfold Giffer.task_ok. by intros ->. Qed.

Lemma tasks_within s : inv s -> (length (tasks s) <= length paths)%nat.
Proof.
  intros Hinv.
  destruct (decide (length (tasks s) <= length paths)%nat) as [|Hgt]; [done|].
  destruct (lookup_lt_is_Some_2 (tasks s) (length paths)) as [t Ht]; [lia|].
  apply (inv_tasks _ _ _ _ Hinv) in Ht as [Hp _].
  apply lookup_lt_Some in Hp. lia.
Qed.

(** *** The invariant *)

Lemma inv_init : inv init.
Proof.
  constructor; simpl; try done.
  - by rewrite length_replicate.
  - by rewrite length_replicate.
  - lia.
Qed.

Lemma inv_step_main s s' : inv s -> step_main paths s = Some s' -> inv s'.
Proof.
  intros Hinv Hstep. unfold step_main in Hstep.
  destruct (joined s) eqn:Hj; [done|].
  destruct (paths !! length (tasks s)) as [path|] eqn:Hp.
  - simplify_eq. destruct Hinv. constructor; simpl; try done.
    + intros j t Hjt. apply lookup_snoc_Some in Hjt as [[Hlt Hjt]|[-> <-]].
      * eapply task_ok_gif; [|by eauto]. done.
      * by repeat split.
    + rewrite count_app. simpl. lia.
    + rewrite count_app. simpl. lia.
    + rewrite count_app. simpl. lia.
  - destruct (wg s =? 0) eqn:Hw; [|done]. simplify_eq.
    pose proof (tasks_within s Hinv) as Hle.
    apply lookup_ge_None in Hp.
    destruct Hinv. constructor; simpl; try done.
    intros _. split; [lia|]. apply Z.eqb_eq in Hw. lia.
Qed.

Ltac other_task Hinv Hne Hjt :=
  rewrite lookup_set_pc_ne in Hjt by done;
  eapply task_ok_other;
  [exact Hne | | | by apply (inv_tasks _ _ _ _ Hinv)];
  simpl; intros; by rewrite ?list_lookup_insert_ne.

Ltac fields Hi Hat Hj :=
  constructor; simpl;
  rewrite ?(count_set_pc _ _ _ _ _ Hi), ?Hat, ?length_insert, ?length_set_pc, ?Hj;
  simpl; try lia; try done.

Lemma inv_step_task i s s' : inv s -> step_task v d fs i s = Some s' -> inv s'.
Proof.
  intros Hinv Hstep. unfold step_task in Hstep.
  destruct (tasks s !! i) as [t|] eqn:Hi; [|done].
  pose proof (inv_tasks _ _ _ _ Hinv _ _ Hi) as (Hpath & Hpc & Him & Hde).
  assert (Hlt : (i < length paths)%nat) by (by apply lookup_lt_Some in Hpath).
  assert (Hj : joined s = false).
  { destruct (joined s) eqn:Hj; [|done].
    destruct (inv_joined _ _ _ _ Hinv Hj) as [_ H0].
    pose proof (count_zero _ _ _ _ H0 Hi) as Hl.
    destruct (at_pc t); simplify_eq/=. }
  pose proof (count_lookup in_region _ _ _ Hi) as Hreg.
  pose proof (count_lookup in_mutex _ _ _ Hi) as Hmut.
  pose proof (count_lookup live _ _ _ Hi) as Hliv.
  pose proof (inv_sem _ _ _ _ Hinv) as Hsem.
  pose proof (inv_budget _ _ _ _ Hinv) as Hbud.
  pose proof (inv_mutex _ _ _ _ Hinv) as Hmx.
  pose proof (inv_wg _ _ _ _ Hinv) as Hwg.
  pose proof (inv_image _ _ _ _ Hinv) as Hlen1.
  pose proof (inv_delay _ _ _ _ Hinv) as Hlen2.
  pose proof (inv_crashed _ _ _ _ Hinv) as Hcr.
  assert (Hmx1 : count in_mutex (tasks s) <= 1).
  { rewrite <- Hmx. destruct (mutex s); simpl; lia. }
  destruct (at_pc t) eqn:Hat; simpl in *.
  - (* sem.Acquire *)
    destruct (sem_cur s <? numcpus) eqn:Hfree; [|done]. simplify_eq.
    apply Z.ltb_lt in Hfree.
    fields Hi Hat Hj.
    intros j t' Hjt. destruct (decide (i = j)) as [<-|Hne]; [|other_task Hinv Hne Hjt].
    rewrite (lookup_set_pc_eq _ _ _ _ Hi) in Hjt. simplify_eq. by repeat split.
  - (* processJpeg *)
    destruct (processJpeg fs (jpeg t)) as [ev [err frame]] eqn:Hp. simplify_eq.
    fields Hi Hat Hj.
    intros j t' Hjt. destruct (decide (i = j)) as [<-|Hne]; [|other_task Hinv Hne Hjt].
    rewrite (lookup_set_pc_eq _ _ _ _ Hi) in Hjt. simplify_eq.
    repeat split; simpl; try done. by rewrite Hp.
  - (* mutex.Lock *)
    destruct (mutex s) eqn:Hm; [done|]. simplify_eq. simpl in Hmx.
    fields Hi Hat Hj.
    intros j t' Hjt. destruct (decide (i = j)) as [<-|Hne]; [|other_task Hinv Hne Hjt].
    rewrite (lookup_set_pc_eq _ _ _ _ Hi) in Hjt. simplify_eq.
    repeat split; simpl; try done. unfold frame_of. by rewrite <- Hpc.
  - (* the frame slot *)
    destruct (decide (i < length (Image (gifInfo s)))%nat) as [Hin|]; [|lia]. simplify_eq.
    fields Hi Hat Hj.
    intros j t' Hjt. destruct (decide (i = j)) as [<-|Hne]; [|other_task Hinv Hne Hjt].
    rewrite (lookup_set_pc_eq _ _ _ _ Hi) in Hjt. simplify_eq.
    repeat split; simpl; try done. intros _. by rewrite list_lookup_insert_eq.
  - (* the delay slot *)
    destruct (decide (i < length (Delay (gifInfo s)))%nat) as [Hin|]; [|lia]. simplify_eq.
    fields Hi Hat Hj.
    intros j t' Hjt. destruct (decide (i = j)) as [<-|Hne]; [|other_task Hinv Hne Hjt].
    rewrite (lookup_set_pc_eq _ _ _ _ Hi) in Hjt. simplify_eq.
    repeat split; simpl; try done; auto. intros _. by rewrite list_lookup_insert_eq.
  - (* bar.Increment, mutex.Unlock *)
    simplify_eq.
    fields Hi Hat Hj.
    intros j t' Hjt. destruct (decide (i = j)) as [<-|Hne]; [|other_task Hinv Hne Hjt].
    rewrite (lookup_set_pc_eq _ _ _ _ Hi) in Hjt. simplify_eq.
    repeat split; simpl; try done; auto.
  - (* sem.Release *)
    destruct (Z.ltb_spec (sem_cur s - 1) 0); [lia|]. simplify_eq.
    fields Hi Hat Hj.
    intros j t' Hjt. destruct (decide (i = j)) as [<-|Hne]; [|other_task Hinv Hne Hjt].
    rewrite (lookup_set_pc_eq _ _ _ _ Hi) in Hjt. simplify_eq.
    repeat split; simpl; try done; auto.
  - (* wg.Done *)
    destruct (Z.ltb_spec (wg s - 1) 0); [lia|]. simplify_eq.
    fields Hi Hat Hj.
    intros j t' Hjt. destruct (decide (i = j)) as [<-|Hne]; [|other_task Hinv Hne Hjt].
    rewrite (lookup_set_pc_eq _ _ _ _ Hi) in Hjt. simplify_eq.
    repeat split; simpl; try done; auto.
  - done.
Qed.

Lemma inv_step t s s' : inv s -> step t s = Some s' -> inv s'.
Proof.
  intros Hinv Hstep. unfold Giffer.step in Hstep.
  destruct (crashed s); [done|].
  destruct t; eauto using inv_step_main, inv_step_task.
Qed.

Lemma inv_reachable s : reachable s -> inv s.
Proof. induction 1; eauto using inv_init, inv_step. Qed.

Lemma run_app sched1 sched2 s : run (sched1 ++ sched2) s = run sched2 (run sched1 s).
Proof.
  revert s. induction sched1 as [|t sched1 IH]; intros s; simpl; [done|].
  by destruct (step t s).
Qed.

(** The reachable states are the states the schedules lead to. *)
Lemma reachable_is_run s : reachable s -> exists sched, s = run sched init.
Proof.
  induction 1 as [|t s s' _ [sched ->] Hstep].
  - by exists [].
  - exists (sched ++ [t]). rewrite run_app. simpl. by rewrite Hstep.
Qed.

Lemma reachable_run sched s : reachable s -> reachable (run sched s).
Proof.
  revert s. induction sched as [|t sched IH]; intros s Hs; simpl; [done|].
  destruct (step t s) as [s'|] eqn:Hstep; [|by apply IH].
  apply IH. by eapply reachable_step.
Qed.


(** *** The slots when the pipeline has been joined *)

Lemma joined_all_done s i t :
  inv s -> joined s = true -> tasks s !! i = Some t -> at_pc t = Done.
Proof.
  intros Hinv Hj Hi. destruct (inv_joined _ _ _ _ Hinv Hj) as [_ H0].
  pose proof (count_zero _ _ _ _ H0 Hi). by destruct (at_pc t).
Qed.

Lemma joined_task s i path :
  inv s -> joined s = true -> paths !! i = Some path ->
  tasks s !! i = Some {| jpeg := path; at_pc := Done |}.
Proof.
  intros Hinv Hj Hp. destruct (inv_joined _ _ _ _ Hinv Hj) as [Hlen _].
  destruct (lookup_lt_is_Some_2 (tasks s) i) as [t Ht].
  { rewrite Hlen. by eapply lookup_lt_Some. }
  pose proof (joined_all_done _ _ _ Hinv Hj Ht) as Hd.
  destruct (inv_tasks _ _ _ _ Hinv _ _ Ht) as [Hp' _].
  rewrite Ht. destruct t as [jp p]. simpl in *. by simplify_eq.
Qed.

Lemma joined_frames s :
  inv s -> joined s = true -> Image (gifInfo s) = frame_of fs <$> paths.
Proof.
  intros Hinv Hj. apply list_eq. intros i. rewrite list_lookup_fmap.
  destruct (paths !! i) as [path|] eqn:Hp; simpl.
  - pose proof (joined_task _ _ _ Hinv Hj Hp) as Ht.
    destruct (inv_tasks _ _ _ _ Hinv _ _ Ht) as (_ & _ & Him & _). by apply Him.
  - apply lookup_ge_None. rewrite (inv_image _ _ _ _ Hinv). by apply lookup_ge_None.
Qed.

Lemma joined_delays s :
  inv s -> joined s = true ->
  Delay (gifInfo s) = replicate (length paths) (delay_ticks d).
Proof.
  intros Hinv Hj. apply list_eq. intros i.
  destruct (paths !! i) as [path|] eqn:Hp; simpl.
  - pose proof (joined_task _ _ _ Hinv Hj Hp) as Ht.
    destruct (inv_tasks _ _ _ _ Hinv _ _ Ht) as (_ & _ & _ & Hde).
    rewrite lookup_replicate_2 by (by eapply lookup_lt_Some). by apply Hde.
  - apply lookup_ge_None in Hp. rewrite (lookup_ge_None_2 (replicate _ _)).
    + apply lookup_ge_None. by rewrite (inv_delay _ _ _ _ Hinv).
    + by rewrite length_replicate.
Qed.

(** *** Every step brings the join nearer *)

Lemma step_task_shape i s s' :
  inv s -> step_task v d fs i s = Some s' ->
  exists t p, tasks s !! i = Some t
              ∧ tasks s' = set_pc i p (tasks s)
              ∧ weight p + 1 = weight (at_pc t)
              ∧ joined s' = joined s.
Proof.
  intros Hinv Hstep. unfold step_task in Hstep.
  destruct (tasks s !! i) as [t|] eqn:Hi; [|done].
  pose proof (inv_tasks _ _ _ _ Hinv _ _ Hi) as (Hpath & _).
  apply lookup_lt_Some in Hpath.
  pose proof (count_lookup in_region _ _ _ Hi) as Hreg.
  pose proof (count_lookup live _ _ _ Hi) as Hliv.
  pose proof (inv_sem _ _ _ _ Hinv) as Hsem.
  pose proof (inv_wg _ _ _ _ Hinv) as Hwg.
  pose proof (inv_image _ _ _ _ Hinv) as Hlen1.
  pose proof (inv_delay _ _ _ _ Hinv) as Hlen2.
  exists t.
  destruct (at_pc t) eqn:Hat; simpl in *;
    repeat match type of Hstep with
      | (if ?c then _ else _) = _ => destruct c eqn:?
      | (let '(_, _) := ?c in _) = _ => destruct c as [? [? ?]]
      end;
    simplify_eq; try lia;
    try (eexists; split_and!; [done | simpl; reflexivity | simpl; lia | done]).
Qed.

Lemma measure_step t s s' :
  inv s -> step t s = Some s' -> measure paths s' < measure paths s.
Proof.
  intros Hinv Hstep. unfold Giffer.step in Hstep.
  destruct (crashed s); [done|]. destruct t as [|i].
  - unfold step_main in Hstep. unfold measure.
    destruct (joined s) eqn:Hj; [done|].
    destruct (paths !! length (tasks s)) as [path|] eqn:Hp.
    + simplify_eq. simpl. rewrite total_weight_app, length_app. simpl. lia.
    + destruct (wg s =? 0); [|done]. simplify_eq. simpl. lia.
  - destruct (step_task_shape _ _ _ Hinv Hstep) as (t & p & Hi & Hts & Hw & Hj).
    unfold measure. rewrite Hts, Hj, length_set_pc, (total_weight_set_pc _ _ _ _ Hi). lia.
Qed.

Lemma total_weight_nonneg ts : 0 <= total_weight ts.
Proof.
  induction ts as [|t ts IH]; simpl; [lia|]. destruct (at_pc t); simpl; lia.
Qed.

Lemma measure_nonneg s : inv s -> 0 <= measure paths s.
Proof.
  intros Hinv. pose proof (tasks_within s Hinv). pose proof (total_weight_nonneg (tasks s)).
  unfold measure. destruct (joined s); lia.
Qed.


(** *** Some goroutine can always step until the join *)

Lemma count_pos P ts :
  0 < count P ts -> exists i t, ts !! i = Some t ∧ P (at_pc t) = true.
Proof.
  induction ts as [|t ts IH]; simpl; [lia|]. intros H.
  destruct (P (at_pc t)) eqn:HP.
  - by exists 0%nat, t.
  - destruct IH as (i & t' & Hi & Ht'); [simpl in H; lia|]. by exists (S i), t'.
Qed.

Lemma count_split ts :
  count live ts <= count unblocked ts + count is_decoded ts + count is_spawned ts
  ∧ count in_region ts <= count unblocked ts + count is_decoded ts
  ∧ count in_mutex ts <= count unblocked ts.
Proof.
  induction ts as [|t ts IH]; simpl; [lia|]. destruct (at_pc t); simpl; lia.
Qed.

Lemma worker_can_step i s t :
  crashed s = false -> tasks s !! i = Some t ->
  unblocked (at_pc t) = true
  ∨ (is_decoded (at_pc t) = true ∧ mutex s = false)
  ∨ (is_spawned (at_pc t) = true ∧ sem_cur s < numcpus) ->
  exists s', step (Worker i) s = Some s'.
Proof.
  intros Hcr Hi H. unfold Giffer.step, step_task. rewrite Hcr, Hi.
  destruct (at_pc t); simpl in H;
    destruct H as [H|[[H1 H2]|[H1 H2]]]; try done;
    repeat match goal with
      | |- context [if ?c then _ else _] => destruct c eqn:?
      | |- context [let '(_, _) := ?c in _] => destruct c as [? [? ?]]
      end;
    try lia; eauto.
Qed.

Lemma progress s :
  1 <= numcpus -> inv s -> joined s = false -> exists t s', step t s = Some s'.
Proof.
  intros Hcpu Hinv Hj.
  pose proof (inv_crashed _ _ _ _ Hinv) as Hcr.
  destruct (paths !! length (tasks s)) as [path|] eqn:Hp.
  { exists Main. unfold Giffer.step, step_main. rewrite Hcr, Hj, Hp. eauto. }
  destruct (wg s =? 0) eqn:Hw.
  { exists Main. unfold Giffer.step, step_main. rewrite Hcr, Hj, Hp, Hw. eauto. }
  apply Z.eqb_neq in Hw.
  pose proof (inv_wg _ _ _ _ Hinv) as Hwg.
  pose proof (inv_sem _ _ _ _ Hinv) as Hsem.
  pose proof (inv_mutex _ _ _ _ Hinv) as Hmx.
  pose proof (count_nonneg live (tasks s)).
  pose proof (count_nonneg in_region (tasks s)).
  pose proof (count_nonneg in_mutex (tasks s)).
  pose proof (count_nonneg is_decoded (tasks s)).
  destruct (count_split (tasks s)) as (Hl & Hr & Hm).
  destruct (decide (0 < count unblocked (tasks s))) as [Hu|Hu].
  { destruct (count_pos _ _ Hu) as (i & t & Hi & Ht).
    exists (Worker i). eapply worker_can_step; eauto. }
  destruct (decide (0 < count is_decoded (tasks s))) as [Hd|Hd].
  { destruct (count_pos _ _ Hd) as (i & t & Hi & Ht).
    exists (Worker i). eapply worker_can_step; eauto.
    right; left. split; [done|]. destruct (mutex s); simpl in *; [lia|done]. }
  destruct (count_pos is_spawned (tasks s)) as (i & t & Hi & Ht); [lia|].
  exists (Worker i). eapply worker_can_step; eauto.
  right; right. split; [done|]. lia.
Qed.

Lemma completes_within n s :
  1 <= numcpus -> inv s -> measure paths s <= Z.of_nat n ->
  exists sched, (length sched <= n)%nat ∧ joined (run sched s) = true.
Proof.
  intros Hcpu. revert s. induction n as [|n IH]; intros s Hinv Hm.
  - exists []. split; [done|]. simpl.
    pose proof (tasks_within s Hinv). pose proof (total_weight_nonneg (tasks s)).
    unfold measure in Hm. destruct (joined s); [done|lia].
  - destruct (joined s) eqn:Hj.
    { exists []. split; [simpl; lia|done]. }
    destruct (progress s Hcpu Hinv Hj) as (t & s' & Hstep).
    pose proof (measure_step _ _ _ Hinv Hstep).
    destruct (IH s') as (sched & Hlen & Hdone); [by eapply inv_step|lia|].
    exists (t :: sched). split; [simpl; lia|]. simpl. by rewrite Hstep.
Qed.

(** The pipeline can always be run to its join, in at most nine steps per
    path and one. *)
Lemma completes :
  1 <= numcpus ->
  exists sched, (length sched <= 9 * length paths + 1)%nat ∧ joined (run sched init) = true.
Proof.
  intros Hcpu. apply completes_within; [done|apply inv_init|].
  unfold measure. simpl. lia.
Qed.

(** *** The semaphore *)

Lemma region_is_live ts : count in_region ts <= count live ts.
Proof. induction ts as [|t ts IH]; simpl; [lia|]. destruct (at_pc t); simpl; lia. Qed.

(** After the join no unit of the semaphore is held. *)
Lemma joined_sem s : inv s -> joined s = true -> sem_cur s = 0.
Proof.
  intros Hinv Hj. destruct (inv_joined _ _ _ _ Hinv Hj) as [_ H0].
  pose proof (inv_sem _ _ _ _ Hinv). pose proof (region_is_live (tasks s)).
  pose proof (count_nonneg in_region (tasks s)). lia.
Qed.

(** The deferred [sem.Release(1)] of a goroutine that has left the mutex is
    never blocked, and gives one unit back. *)
Lemma release_step s i t :
  inv s -> tasks s !! i = Some t -> at_pc t = Unlocked ->
  step (Worker i) s
  = Some {| gifInfo := gifInfo s; sem_cur := sem_cur s - 1; mutex := mutex s;
            wg := wg s; bar := bar s; tasks := set_pc i Released (tasks s);
            joined := joined s; crashed := crashed s;
            events := events s; decoded := decoded s |}.
Proof.
  intros Hinv Hi Hpc. unfold Giffer.step, step_task.
  rewrite (inv_crashed _ _ _ _ Hinv), Hi, Hpc.
  pose proof (count_lookup in_region _ _ _ Hi) as Hc. rewrite Hpc in Hc. simpl in Hc.
  pose proof (inv_sem _ _ _ _ Hinv).
  destruct (sem_cur s - 1 <? 0) eqn:E; [lia|done].
Qed.

(** The decode step of a goroutine that holds a unit is never blocked, and
    the goroutine keeps its unit and goes on to the mutex whatever
    [processJpeg] returns. *)
Lemma decode_step s i t :
  inv s -> tasks s !! i = Some t -> at_pc t = Acquired ->
  exists s', step (Worker i) s = Some s'
    ∧ sem_cur s' = sem_cur s
    ∧ tasks s' !! i
      = Some {| jpeg := jpeg t;
                at_pc := Decoded (processJpeg fs (jpeg t)).2.1 (processJpeg fs (jpeg t)).2.2 |}.
Proof.
  intros Hinv Hi Hpc. unfold Giffer.step, step_task.
  rewrite (inv_crashed _ _ _ _ Hinv), Hi, Hpc.
  destruct (processJpeg fs (jpeg t)) as [ev [err frame]]. simpl.
  eexists. split; [done|]. simpl. split; [done|]. by apply lookup_set_pc_eq.
Qed.


(** *** What the pipeline guarantees *)

Lemma processJpeg_failure path : decode_fails fs path -> frame_of fs path = None.
Proof.
  unfold decode_fails, frame_of, processJpeg.
  destruct (os_Open fs path) as [f|err]; simpl; [|done].
  destruct f as [err|bytes]; [done|].
  destruct (jpeg_Decode bytes) as [img|err]; simpl; done.
Qed.

Lemma delay_ticks_exact : 0 <= d < 2 ^ 64 -> delay_ticks d = d / 10.
Proof.
  intros Hd. unfold delay_ticks, int_of_uint, uint_div.
  assert (0 <= d / 10) by (apply Z.div_pos; lia).
  assert (d / 10 < 2 ^ 63) by (apply Z.div_lt_upper_bound; lia).
  rewrite (Z.mod_small (d / 10)) by lia.
  rewrite Z.mod_small by lia. lia.
Qed.

(** C1. For every list of discovered paths and every schedule of the
    goroutines, once [wg.Wait()] has returned the frame at index [i] is the
    frame [processJpeg] returns for the [i]-th path, nil if it failed: the
    order of the frames is the order of the paths, whichever goroutine ends
    first. The pipeline can be run to that point. *)
Theorem frames_follow_paths :
  1 <= numcpus ->
  (exists sched, joined (run sched init) = true)
  ∧ (forall sched, joined (run sched init) = true ->
       Image (gifInfo (run sched init)) = frame_of fs <$> paths
       ∧ forall i path, paths !! i = Some path ->
           Image (gifInfo (run sched init)) !! i = Some (frame_of fs path)
           ∧ (decode_fails fs path -> Image (gifInfo (run sched init)) !! i = Some None)).
Proof.
  intros Hcpu. split.
  - destruct (completes Hcpu) as (sched & _ & Hj). by exists sched.
  - intros sched Hj.
    pose proof (inv_reachable _ (reachable_run sched _ (reachable_init _ _ _ _))) as Hinv.
    pose proof (joined_frames _ Hinv Hj) as HI.
    split; [done|]. intros i path Hp.
    assert (Image (gifInfo (run sched init)) !! i = Some (frame_of fs path)) as Hi.
    { by rewrite HI, list_lookup_fmap, Hp. }
    split; [done|]. intros Hf. by rewrite Hi, processJpeg_failure.
Qed.

(** C3. In every state of the pipeline the frame container and the delay
    container are as long as the list of paths; after the join a failed decode
    has left nil in its own slot, and every other slot holds the frame of
    its own path. *)
Theorem slots_stay_aligned sched :
  length (Image (gifInfo (run sched init))) = length paths
  ∧ length (Delay (gifInfo (run sched init))) = length paths
  ∧ (joined (run sched init) = true ->
     forall i path, paths !! i = Some path -> decode_fails fs path ->
       Image (gifInfo (run sched init)) !! i = Some None
       ∧ forall j other, j ≠ i -> paths !! j = Some other ->
           Image (gifInfo (run sched init)) !! j = Some (frame_of fs other)).
Proof.
  pose proof (inv_reachable _ (reachable_run sched _ (reachable_init _ _ _ _))) as Hinv.
  split; [apply Hinv|]. split; [apply Hinv|].
  intros Hj i path Hp Hf.
  rewrite (joined_frames _ Hinv Hj). split.
  - rewrite list_lookup_fmap, Hp. simpl. by rewrite (processJpeg_failure _ Hf).
  - intros j other _ Ho. by rewrite list_lookup_fmap, Ho.
Qed.

(** C7. For a requested delay of [d] milliseconds, after the join every
    delay slot holds [d / 10]; for 100 milliseconds that is 10. *)
Theorem delay_is_uniform sched :
  0 <= d < 2 ^ 64 ->
  joined (run sched init) = true ->
  Delay (gifInfo (run sched init)) = replicate (length paths) (d / 10)
  ∧ (forall i, (i < length paths)%nat ->
       Delay (gifInfo (run sched init)) !! i = Some (d / 10))
  ∧ (d = 100 ->
     Delay (gifInfo (run sched init)) = replicate (length paths) 10).
Proof.
  intros Hd Hj.
  pose proof (inv_reachable _ (reachable_run sched _ (reachable_init _ _ _ _))) as Hinv.
  rewrite (joined_delays _ Hinv Hj), delay_ticks_exact by done.
  split; [done|]. split.
  - intros i Hi. by apply lookup_replicate_2.
  - by intros ->.
Qed.

(** C9. In every state of the pipeline the goroutines between [sem.Acquire]
    and [sem.Release], where [processJpeg] runs, are at most [numcpus], and
    the semaphore counts exactly them. Every goroutine gives its unit back,
    whatever its decode returned: a goroutine that holds a unit and decodes
    keeps going to the mutex with the result, failed or not; the release of
    a goroutine that has left the mutex is never blocked and lowers the
    semaphore by one; from every state the pipeline can be run on to the
    join; and after the join no unit is held. *)
Theorem region_is_bounded sched :
  1 <= numcpus ->
  count in_region (tasks (run sched init)) <= numcpus
  ∧ sem_cur (run sched init) = count in_region (tasks (run sched init))
  ∧ (joined (run sched init) = true -> sem_cur (run sched init) = 0)
  ∧ (forall i t, tasks (run sched init) !! i = Some t -> at_pc t = Acquired ->
       exists s', step (Worker i) (run sched init) = Some s'
         ∧ sem_cur s' = sem_cur (run sched init)
         ∧ tasks s' !! i
           = Some {| jpeg := jpeg t;
                     at_pc := Decoded (processJpeg fs (jpeg t)).2.1
                                      (processJpeg fs (jpeg t)).2.2 |})
  ∧ (forall i t, tasks (run sched init) !! i = Some t -> at_pc t = Unlocked ->
       exists s', step (Worker i) (run sched init) = Some s'
         ∧ sem_cur s' = sem_cur (run sched init) - 1
         ∧ tasks s' !! i = Some {| jpeg := jpeg t; at_pc := Released |})
  ∧ (exists more,
       joined (run (sched ++ more) init) = true
       ∧ sem_cur (run (sched ++ more) init) = 0
       ∧ forall i path, paths !! i = Some path ->
           tasks (run (sched ++ more) init) !! i = Some {| jpeg := path; at_pc := Done |}).
Proof.
  intros Hcpu.
  pose proof (inv_reachable _ (reachable_run sched _ (reachable_init _ _ _ _))) as Hinv.
  pose proof (inv_sem _ _ _ _ Hinv) as Hsem.
  pose proof (inv_budget _ _ _ _ Hinv) as Hbud.
  split; [lia|]. split; [done|]. split; [by apply joined_sem|].
  split; [intros i t Hi Hpc; by apply decode_step|]. split.
  - intros i t Hi Hpc. rewrite (release_step _ _ _ Hinv Hi Hpc).
    eexists. split; [done|]. simpl. split; [done|]. by apply lookup_set_pc_eq.
  - pose proof (measure_nonneg _ Hinv) as Hm.
    destruct (completes_within (Z.to_nat (measure paths (run sched init))) _ Hcpu Hinv)
      as (more & _ & Hj); [lia|].
    exists more. rewrite run_app.
    assert (Hinv' : inv (run more (run sched init))).
    { apply inv_reachable. do 2 apply reachable_run. apply reachable_init. }
    split; [done|]. split; [by apply joined_sem|].
    intros i path Hp. by apply joined_task.
Qed.

End PipelineProofs.

(** ** Proofs: the walk *)

Lemma collect_returns_nil v path info err st r :
  collect v path info err st = Some r -> r.1 = None.
Proof.
  unfold collect. destruct info as [info|]; [|done].
  destruct (IsDir info); [by intros [= <-]|].
  destruct (negb (is_jpeg path)); by intros [= <-].
Qed.

Lemma walk_returns_nil v n : forall path st r,
  walk (collect v) path n st = Some r -> r.1 = None.
Proof.
  induction n as [data|e| |es IH] using Node_nested_ind; intros path st r; cbn [walk].
  - apply collect_returns_nil.
  - apply collect_returns_nil.
  - destruct (collect v path _ _ st) as [[err1 st1]|] eqn:Hc; [|done].
    apply collect_returns_nil in Hc. simpl in Hc. subst. by intros [= <-].
  - destruct (collect v path _ _ st) as [[err1 st1]|] eqn:Hc; [|done].
    apply collect_returns_nil in Hc. simpl in Hc. subst err1.
    clear st. revert st1.
    induction IH as [|[name c] es Hc _ IHes]; intros st; [by intros [= <-]|].
    simpl in Hc.
    destruct c as [data|listing|e].
    + destruct (walk (collect v) (Join path name) (Reg data) st) as [[[err|] st']|] eqn:Hw;
        [apply Hc in Hw; done|apply IHes|done].
    + destruct (walk (collect v) (Join path name) (Dir listing) st) as [[[err|] st']|] eqn:Hw;
        [apply Hc in Hw; done|apply IHes|done].
    + destruct (collect v (Join path name) None _ st) as [[[err|] st']|] eqn:Hw;
        [apply collect_returns_nil in Hw; done|apply IHes|done].
Qed.

(** The walk of [main] never returns an error: when it returns, the error is
    nil. *)
Lemma Walk_returns_nil v fs root st r :
  Walk (collect v) fs root st = Some r -> r.1 = None.
Proof.
  unfold Walk.
  set (w := match fs_find fs root with
            | Some n => walk (collect v) root n st
            | None => collect v root None (Some (PathError (missing fs root))) st
            end).
  assert (Hw : forall r, w = Some r -> r.1 = None).
  { subst w. destruct (fs_find fs root); [apply walk_returns_nil|apply collect_returns_nil]. }
  destruct w as [[[err|] st']|]; [|by intros [= <-]|done].
  specialize (Hw _ eq_refl). done.
Qed.

Lemma collect_dir v path listing err ps ev :
  collect v path (Some (info_of (Dir listing))) err (ps, ev)
  = Some (None, (ps, ev ++ logrus v DebugLevel ("skipping dir " +:+ path))).
Proof. reflexivity. Qed.

Lemma collect_reg v path data ps ev :
  exists ev', collect v path (Some (info_of (Reg data))) None (ps, ev)
              = Some (None, (ps ++ (if is_jpeg path then [path] else []), ev')).
Proof.
  unfold collect. simpl. destruct (is_jpeg path); simpl; eauto.
  rewrite app_nil_r. eauto.
Qed.

Lemma walk_collects v n : forall path ps ev,
  no_bad n = true ->
  exists ev', walk (collect v) path n (ps, ev) = Some (None, (ps ++ paths_of path n, ev')).
Proof.
  induction n as [data|e| |es IH] using Node_nested_ind; intros path ps ev Hnb;
    cbn [walk paths_of].
  - apply collect_reg.
  - done.
  - rewrite collect_dir, app_nil_r. eauto.
  - rewrite collect_dir.
    generalize (ev ++ logrus v DebugLevel ("skipping dir " +:+ path)). clear ev.
    cbn [no_bad] in Hnb. revert ps Hnb.
    induction IH as [|[name c] es Hc _ IHes]; intros ps Hnb ev.
    { rewrite app_nil_r. eauto. }
    apply andb_prop in Hnb as [Hnb1 Hnb2]. simpl in Hc.
    destruct (Hc (Join path name) ps ev Hnb1) as [ev1 Hw].
    destruct (IHes (ps ++ paths_of (Join path name) c) Hnb2 ev1) as [ev2 He].
    exists ev2. rewrite (assoc_L (++)). rewrite <- He.
    destruct c as [data|listing|e]; [by rewrite Hw|by rewrite Hw|done].
Qed.


Lemma paths_of_entries path es :
  paths_of path (Dir (Some es))
  = flat_map (fun e => paths_of (Join path e.1) e.2) es.
Proof.
  cbn [paths_of]. induction es as [|[name c] es IH]; [done|].
  simpl. by rewrite <- IH.
Qed.

(** C5, as the code has it. The walk of [main] never fails with an error:
    whenever it returns, its error is nil. When [Lstat] succeeds on every
    name, it returns the names with a JPEG extension that are not
    directories, in the order of the walk: a root that is a regular file is
    itself the only candidate, and a directory that cannot be listed, the
    root or a deeper one, adds no path and does not stop the walk. *)
Theorem walk_never_reports v fs root ps ev :
  (forall r, Walk (collect v) fs root (ps, ev) = Some r -> r.1 = None)
  ∧ (forall n, fs_find fs root = Some n -> no_bad n = true ->
       exists ev', Walk (collect v) fs root (ps, ev)
                   = Some (None, (ps ++ paths_of root n, ev')))
  ∧ (forall data, paths_of root (Reg data) = if is_jpeg root then [root] else [])
  ∧ paths_of root (Dir None) = []
  ∧ (forall before name after,
       paths_of root (Dir (Some (before ++ (name, Dir None) :: after)))
       = paths_of root (Dir (Some (before ++ after)))).
Proof.
  split; [apply Walk_returns_nil|]. split; [|split; [done|split; [done|]]].
  - intros n Hn Hnb. unfold Walk. rewrite Hn.
    destruct (walk_collects v n root ps ev Hnb) as [ev' ->]. eauto.
  - intros before name after. rewrite !paths_of_entries, !flat_map_app. done.
Qed.


(** ** Proofs: the file system and [main] *)

Lemma find_node_here p n t : String.eqb p t = true -> find_node p n t = Some n.
Proof. intros E. destruct n; cbn [find_node]; by rewrite E. Qed.

Lemma set_node_miss t new n : forall p,
  find_node p n t = None -> set_node p n t new = n.
Proof.
  induction n as [data|e| |es IH] using Node_nested_ind; intros p;
    cbn [find_node set_node]; destruct (String.eqb p t); try done.
  intros H. do 2 f_equal.
  induction IH as [|[name c] es Hc _ IHes]; [done|]. simpl in Hc.
  destruct (find_node (Join p name) c t) eqn:Hf; [done|].
  rewrite (Hc _ Hf). f_equal. by apply IHes.
Qed.

Lemma find_set_node t new n : forall p x,
  find_node p n t = Some x -> find_node p (set_node p n t new) t = Some new.
Proof.
  induction n as [data|e| |es IH] using Node_nested_ind; intros p x;
    cbn [find_node set_node]; destruct (String.eqb p t) eqn:E;
    try (intros _; by apply find_node_here); try done.
  cbn [find_node]. rewrite E.
  induction IH as [|[name c] es Hc _ IHes]; [done|]. simpl in Hc.
  destruct (find_node (Join p name) c t) eqn:Hf.
  - intros _. by rewrite (Hc _ _ Hf).
  - intros H. rewrite (set_node_miss _ _ _ _ Hf), Hf. by apply IHes.
Qed.

Lemma fs_find_set fs t new x :
  fs_find fs t = Some x -> fs_find (fs_set fs t new) t = Some new.
Proof.
  intros H. unfold fs_set. rewrite H.
  induction fs as [|[p n] fs IH]; [done|]. simpl in *.
  destruct (find_node p n t) eqn:Hf.
  - by rewrite (find_set_node _ _ _ _ _ Hf).
  - rewrite (set_node_miss _ _ _ _ Hf), Hf. by apply IH.
Qed.

Lemma fs_find_new fs t new :
  fs_find fs t = None -> fs_find (fs_set fs t new) t = Some new.
Proof.
  intros H. unfold fs_set. rewrite H.
  induction fs as [|[p n] fs IH]; simpl in *.
  - by rewrite find_node_here by apply String.eqb_refl.
  - destruct (find_node p n t); [done|]. by apply IH.
Qed.

Lemma find_node_dir p es t :
  find_node p (Dir (Some es)) t
  = if String.eqb p t then Some (Dir (Some es)) else find_entries p es t.
Proof.
  cbn [find_node]. destruct (String.eqb p t); [done|].
  induction es as [|[name c] es IH]; [done|]. simpl. by rewrite IH.
Qed.

Lemma find_entries_app p a b t :
  find_entries p (a ++ b) t
  = match find_entries p a t with
    | Some x => Some x
    | None => find_entries p b t
    end.
Proof.
  induction a as [|[name c] a IH]; [done|]. simpl.
  by destruct (find_node (Join p name) c t).
Qed.

(** A new entry of the directory at [dir] is found under the joined name,
    when nothing was found under that name before. *)
Lemma find_created dir name b new es n : forall p,
  String.eqb (Join dir b) name = true ->
  find_node p n dir = Some (Dir (Some es)) ->
  find_node p n name = None ->
  find_node p (set_node p n dir (Dir (Some (es ++ [(b, new)])))) name = Some new.
Proof.
  induction n as [data|e| |es' IH] using Node_nested_ind; intros p Hj;
    try (cbn [find_node set_node]; destruct (String.eqb p dir) eqn:E; done).
  rewrite (find_node_dir p es' name).
  cbn [find_node set_node]. destruct (String.eqb p dir) eqn:E.
  - intros [= ->] H2.
    destruct (String.eqb p name) eqn:E2; [done|].
    rewrite find_node_dir, E2, find_entries_app, H2. simpl.
    apply String.eqb_eq in E. subst p. by rewrite (find_node_here _ _ _ Hj).
  - destruct (String.eqb p name) eqn:E2; [done|]. cbn [find_node]. rewrite E2.
    induction IH as [|[nm c] es' Hc _ IHes]; [done|]. simpl in Hc. simpl.
    destruct (find_node (Join p nm) c dir) eqn:Hf.
    + intros [= ->]. destruct (find_node (Join p nm) c name) eqn:Hn; [done|].
      intros _. by rewrite (Hc _ Hj Hf Hn).
    + intros H1. destruct (find_node (Join p nm) c name) eqn:Hn; [done|].
      intros H2. rewrite (set_node_miss _ _ _ _ Hf), Hn. by apply IHes.
Qed.

Lemma fs_find_created fs dir b name new es :
  String.eqb (Join dir b) name = true ->
  fs_find fs dir = Some (Dir (Some es)) ->
  fs_find fs name = None ->
  fs_find (fs_set fs dir (Dir (Some (es ++ [(b, new)])))) name = Some new.
Proof.
  intros Hj H1 H2. unfold fs_set. rewrite H1.
  induction fs as [|[p n] fs IH]; [done|]. simpl in *.
  destruct (find_node p n name) eqn:Hn; [done|].
  destruct (find_node p n dir) eqn:Hf.
  - injection H1 as ->. by rewrite (find_created _ _ _ _ _ _ _ Hj Hf Hn).
  - rewrite (set_node_miss _ _ _ _ Hf), Hn. by apply IH.
Qed.

Lemma parent_of_join name dir b :
  parent_of name = Some (dir, b) -> String.eqb (Join dir b) name = true.
Proof.
  unfold parent_of. destruct (split_last name) as [[d0 b0]|]; [|done].
  destruct (String.eqb (Join (if String.eqb d0 "" then "/" else d0) b0) name) eqn:E;
    [|done].
  by intros [= <- <-].
Qed.

(** A created file is found under its name, and is empty. *)
Lemma create_content fs name fs2 :
  fs_find fs name = None ->
  create fs name = inl fs2 ->
  fs_find fs2 name = Some (Reg (Some [])).
Proof.
  intros Hn. unfold create. destruct (parent_of name) as [[dir b]|] eqn:Hp.
  - apply parent_of_join in Hp.
    destruct (fs_find fs dir) as [[data|[es|]|e]|] eqn:Hd; try done.
    destruct (String.eqb b ""); [done|]. intros [= <-].
    by apply fs_find_created.
  - intros [= <-]. by apply fs_find_new.
Qed.

Lemma out_flags_bits :
  has_flag out_flags O_CREATE = true ∧ has_flag out_flags O_WRONLY = true
  ∧ has_flag out_flags O_EXCL = false ∧ has_flag out_flags O_TRUNC = false.
Proof. by vm_compute. Qed.

(** With the flags of [main], a successful open leaves a regular file at the
    name: the one that was there, or a new and empty one. *)
Lemma open_output_exists fs name fs2 :
  os_OpenFile fs name out_flags ModePerm = inl fs2 ->
  exists data, fs_find fs2 name = Some (Reg data).
Proof.
  destruct out_flags_bits as (Hc & Hw & He & Ht).
  unfold os_OpenFile. rewrite Hc, Hw, He, Ht. simpl.
  destruct (fs_find fs name) as [[[old|]|listing|e]|] eqn:Hf; try done.
  - intros [= <-]. eauto.
  - intros Ho. rewrite (create_content _ _ _ Hf Ho). eauto.
Qed.

(** With the flags of [main], a file that is there and may be opened is
    opened as it is. *)
Lemma open_existing fs name old :
  fs_find fs name = Some (Reg (Some old)) ->
  os_OpenFile fs name out_flags ModePerm = inl fs.
Proof.
  destruct out_flags_bits as (Hc & Hw & He & Ht).
  intros Hf. unfold os_OpenFile. by rewrite Hf, Hc, He, Ht.
Qed.

(** With the flags of [main], the open of a name that is not there is its
    creation. *)
Lemma open_fresh fs name fs2 :
  fs_find fs name = None ->
  os_OpenFile fs name out_flags ModePerm = inl fs2 ->
  fs_find fs2 name = Some (Reg (Some [])).
Proof.
  destruct out_flags_bits as (Hc & _).
  intros Hf. unfold os_OpenFile. rewrite Hf, Hc. by apply create_content.
Qed.

(** An open for writing that does not create succeeds only on a regular
    file that is there and may be opened. *)
Lemma open_plain fs name fs2 :
  os_OpenFile fs name O_WRONLY ModePerm = inl fs2 ->
  exists old, fs_find fs name = Some (Reg (Some old)).
Proof.
  unfold os_OpenFile.
  destruct (fs_find fs name) as [[[old|]|listing|e]|]; try done. eauto.
Qed.

Lemma fs_write_content fs name old w :
  fs_find fs name = Some (Reg (Some old)) ->
  fs_find (fs_write fs name w) name = Some (Reg (Some (overwrite old w))).
Proof. intros Hf. unfold fs_write. rewrite Hf. by apply fs_find_set with (x := Reg (Some old)). Qed.

Lemma fs_write_exists fs name data w :
  fs_find fs name = Some (Reg data) ->
  exists data', fs_find (fs_write fs name w) name = Some (Reg data').
Proof.
  intros Hf. unfold fs_write. rewrite Hf.
  destruct data as [old|]; rewrite (fs_find_set _ _ _ _ Hf); eauto.
Qed.

Lemma not_exist_false err :
  err ≠ Some (PathError ENOENT) -> os_IsNotExist err = false.
Proof. destruct err as [[[]| |]|]; simpl; congruence. Qed.

Lemma main_refused f other sched fs :
  version f = false ->
  os_IsNotExist (os_Stat fs (outfile f)).2 = false ->
  main f other sched fs = refused f fs.
Proof. intros Hv Hs. unfold main. by rewrite Hv, Hs. Qed.

(** C10. When the status check of the output path fails with an error that
    is not not-exist, the run ends as it does when the file exists: it logs
    that the output file already exists and returns, with no decode and no
    write. Only a not-exist error gets past the check. *)
Theorem stat_failure_is_refusal f other sched fs :
  version f = false ->
  (os_Stat fs (outfile f)).2 ≠ Some (PathError ENOENT) ->
  main f other sched fs = refused f fs.
Proof. intros Hv Hs. apply main_refused; [done|]. by apply not_exist_false. Qed.

(** What [main] does once the pipeline has joined and the output path has
    been opened. *)
Lemma main_output_stage f other sched fs dirname imgPaths ev fs2 :
  version f = false ->
  os_IsNotExist (os_Stat fs (outfile f)).2 = true ->
  args f = [dirname] ->
  Walk (collect (verbose f)) fs dirname ([], startup f) = Some (None, (imgPaths, ev)) ->
  imgPaths ≠ [] ->
  joined (run (verbose f) (delayMs f) fs imgPaths sched (pipeline_init imgPaths)) = true ->
  os_OpenFile (other fs) (outfile f) out_flags ModePerm = inl fs2 ->
  let s := run (verbose f) (delayMs f) fs imgPaths sched (pipeline_init imgPaths) in
  fs_after (main f other sched fs)
  = fs_write fs2 (outfile f) (written (gif_EncodeAll (gifInfo s)))
  ∧ output (main f other sched fs)
    = ev ++ events s
      ++ match gif_EncodeAll (gifInfo s) with
         | EncodeError _ => [Log ErrorLevel "While encoding gif file"]
         | _ => []
         end
  ∧ exit (main f other sched fs)
    = match gif_EncodeAll (gifInfo s) with
      | EncodePanic _ => Panicked
      | _ => Returned
      end.
Proof.
  intros Hv Hs Ha Hw Hne Hj Ho s.
  pose proof (inv_reachable _ _ _ _ _
    (reachable_run (verbose f) (delayMs f) fs imgPaths sched _ (reachable_init _ _ _ _))) as Hinv.
  fold s in Hinv, Hj.
  unfold main. rewrite Hv, Hs, Ha, Hw.
  destruct imgPaths as [|p0 ps]; [done|]. simpl (length _ =? 0)%nat. cbv iota.
  fold s. rewrite (inv_crashed _ _ _ _ Hinv), Hj. simpl. rewrite Ho.
  destruct (gif_EncodeAll (gifInfo s)); simpl; by rewrite ?app_nil_r.
Qed.

(** C4, as the code has it. A run whose status check finds the output path
    ends without decoding and without touching the file system. The check
    is the only refusal: the open after the pipeline asks for create and
    write-only, not for an exclusive creation and not for truncation. So
    when, by the time the pipeline has joined, the output path can be opened
    for writing without creating it (a regular file is there, put there
    since the check), the open of [main] succeeds too, no error is logged
    for it, and the run writes the encoding over the beginning of that
    file. *)
Theorem existing_output_is_refused :
  (forall f other sched fs,
     (os_Stat fs (outfile f)).2 = None ->
     fs_after (main f other sched fs) = fs
     ∧ opened (main f other sched fs) = []
     ∧ (version f = false -> main f other sched fs = refused f fs))
  ∧ (forall f other sched fs dirname imgPaths ev fs2,
       version f = false ->
       os_IsNotExist (os_Stat fs (outfile f)).2 = true ->
       args f = [dirname] ->
       Walk (collect (verbose f)) fs dirname ([], startup f) = Some (None, (imgPaths, ev)) ->
       imgPaths ≠ [] ->
       joined (run (verbose f) (delayMs f) fs imgPaths sched (pipeline_init imgPaths)) = true ->
       os_OpenFile (other fs) (outfile f) O_WRONLY ModePerm = inl fs2 ->
       let s := run (verbose f) (delayMs f) fs imgPaths sched (pipeline_init imgPaths) in
       let w := written (gif_EncodeAll (gifInfo s)) in
       exists old,
         fs_find (other fs) (outfile f) = Some (Reg (Some old))
         ∧ fs_after (main f other sched fs) = fs_write (other fs) (outfile f) w
         ∧ fs_find (fs_after (main f other sched fs)) (outfile f)
           = Some (Reg (Some (w ++ drop (length w) old)))
         ∧ output (main f other sched fs)
           = ev ++ events s
             ++ match gif_EncodeAll (gifInfo s) with
                | EncodeError _ => [Log ErrorLevel "While encoding gif file"]
                | _ => []
                end).
Proof.
  split.
  - intros f other sched fs Hs.
    assert (Hr : version f = false -> main f other sched fs = refused f fs).
    { intros Hv. apply main_refused; [done|]. by rewrite Hs. }
    destruct (version f) eqn:Hv.
    + unfold main. rewrite Hv. done.
    + by rewrite Hr.
  - intros f other sched fs dirname imgPaths ev fs2 Hv Hs Ha Hw Hne Hj Hplain s w.
    destruct (open_plain _ _ _ Hplain) as [old Hold]. exists old.
    destruct (main_output_stage f other sched fs dirname imgPaths ev (other fs)
                Hv Hs Ha Hw Hne Hj (open_existing _ _ _ Hold)) as (Hfs & Hout & _).
    fold s in Hfs, Hout. fold w in Hfs.
    split; [done|]. split; [done|]. split; [|done].
    rewrite Hfs. by apply fs_write_content.
Qed.

(** C6. When the walk finds no eligible file, [main] logs that it could not
    find any jpeg files and returns: nothing is decoded and the file system
    is as it was, so no output file has been created. *)
Theorem no_input_is_reported f other sched fs dirname ev :
  version f = false ->
  os_IsNotExist (os_Stat fs (outfile f)).2 = true ->
  args f = [dirname] ->
  Walk (collect (verbose f)) fs dirname ([], startup f) = Some (None, ([], ev)) ->
  main f other sched fs
  = {| exit := Returned; fs_after := fs;
       output := ev ++ [Log ErrorLevel "could not find any jpeg files at provided path"];
       opened := [] |}.
Proof. intros Hv Hs Ha Hw. unfold main. by rewrite Hv, Hs, Ha, Hw. Qed.

(** C2, as the code has it. When a discovered file fails to decode, the run
    does not stop before the output stage: after the join the slot of that
    file is nil, the output path is opened with create and write-only, and
    when that open succeeds the output file exists after the run, holding
    what the encoder wrote for the frame sequence with the nil slot. *)
Theorem failed_decode_reaches_output f other sched fs dirname imgPaths ev i path fs2 :
  version f = false ->
  os_IsNotExist (os_Stat fs (outfile f)).2 = true ->
  args f = [dirname] ->
  Walk (collect (verbose f)) fs dirname ([], startup f) = Some (None, (imgPaths, ev)) ->
  joined (run (verbose f) (delayMs f) fs imgPaths sched (pipeline_init imgPaths)) = true ->
  imgPaths !! i = Some path ->
  decode_fails fs path ->
  os_OpenFile (other fs) (outfile f) out_flags ModePerm = inl fs2 ->
  let s := run (verbose f) (delayMs f) fs imgPaths sched (pipeline_init imgPaths) in
  Image (gifInfo s) !! i = Some None
  ∧ fs_after (main f other sched fs)
    = fs_write fs2 (outfile f) (written (gif_EncodeAll (gifInfo s)))
  ∧ exists data, fs_find (fs_after (main f other sched fs)) (outfile f) = Some (Reg data).
Proof.
  intros Hv Hs Ha Hw Hj Hp Hf Ho s.
  pose proof (inv_reachable _ _ _ _ _
    (reachable_run (verbose f) (delayMs f) fs imgPaths sched _ (reachable_init _ _ _ _))) as Hinv.
  fold s in Hinv, Hj.
  assert (Hslot : Image (gifInfo s) !! i = Some None).
  { rewrite (joined_frames _ _ _ _ Hinv Hj), list_lookup_fmap, Hp. simpl.
    by rewrite (processJpeg_failure _ _ Hf). }
  assert (Hmain : fs_after (main f other sched fs)
                  = fs_write fs2 (outfile f) (written (gif_EncodeAll (gifInfo s)))).
  { unfold main. rewrite Hv, Hs, Ha, Hw.
    destruct imgPaths as [|p0 ps]; [done|]. simpl (length _ =? 0)%nat. cbv iota.
    fold s. rewrite (inv_crashed _ _ _ _ Hinv), Hj. simpl. rewrite Ho.
    by destruct (gif_EncodeAll (gifInfo s)). }
  split; [done|]. split; [done|]. rewrite Hmain.
  destruct (open_output_exists _ _ _ Ho) as [data Hd].
  by eapply fs_write_exists.
Qed.


(** ** More about the goroutines *)

Section PipelineMore.

Variable v : bool.
Variable d : Z.
Variable fs : FS.
Variable paths : list string.

Local Abbreviation step := (step v d fs paths).
Local Abbreviation run := (run v d fs paths).
Local Abbreviation taken := (taken v d fs paths).
Local Abbreviation inv := (inv d fs paths).
Local Abbreviation init := (pipeline_init paths).
Local Abbreviation ledger := (ledger fs).

Lemma inv_run sched : inv (run sched init).
Proof.
  apply inv_reachable with (v := v). apply reachable_run. apply reachable_init.
Qed.

Lemma count_two P ts i j ti tj :
  i ≠ j -> ts !! i = Some ti -> ts !! j = Some tj ->
  P (at_pc ti) = true -> P (at_pc tj) = true -> 2 <= count P ts.
Proof.
  revert i j. induction ts as [|t ts IH]; intros [|i] [|j] Hne Hi Hj Pi Pj;
    simplify_eq/=.
  - pose proof (count_lookup P ts j tj Hj). rewrite Pi, Pj in *. simpl in *. lia.
  - pose proof (count_lookup P ts i ti Hi). rewrite Pi, Pj in *. simpl in *. lia.
  - assert (i ≠ j) by congruence.
    pose proof (IH i j ltac:(done) Hi Hj Pi Pj). destruct (P (at_pc t)); simpl; lia.
Qed.

(** X1. In every state of the pipeline at most one goroutine is between
    [mutex.Lock] and [mutex.Unlock], the mutex is held exactly when one is,
    and two goroutines that are both there are the same goroutine. *)
Theorem mutex_is_exclusive sched :
  count in_mutex (tasks (run sched init)) <= 1
  ∧ (mutex (run sched init) = true <-> count in_mutex (tasks (run sched init)) = 1)
  ∧ (forall i j ti tj,
       tasks (run sched init) !! i = Some ti -> tasks (run sched init) !! j = Some tj ->
       in_mutex (at_pc ti) = true -> in_mutex (at_pc tj) = true -> i = j).
Proof.
  pose proof (inv_mutex _ _ _ _ (inv_run sched)) as Hmx.
  assert (H1 : count in_mutex (tasks (run sched init)) <= 1).
  { rewrite <- Hmx. destruct (mutex (run sched init)); simpl; lia. }
  split; [done|]. split.
  - destruct (mutex (run sched init)); simpl in Hmx; split; intros; try done; lia.
  - intros i j ti tj Hi Hj Pi Pj. destruct (decide (i = j)) as [|Hne]; [done|].
    pose proof (count_two _ _ _ _ _ _ Hne Hi Hj Pi Pj). lia.
Qed.

(** X2. The pipeline never panics: in every state every started goroutine
    has an index inside both slices, the semaphore has never released more
    than it holds, and the counter of the wait group is not negative. *)
Theorem pipeline_never_panics sched :
  crashed (run sched init) = false
  ∧ (forall i t, tasks (run sched init) !! i = Some t ->
       (i < length (Image (gifInfo (run sched init))))%nat
       ∧ (i < length (Delay (gifInfo (run sched init))))%nat)
  ∧ 0 <= sem_cur (run sched init)
  ∧ 0 <= wg (run sched init).
Proof.
  pose proof (inv_run sched) as Hinv.
  split; [apply Hinv|]. split; [|split].
  - intros i t Hi. destruct (inv_tasks _ _ _ _ Hinv _ _ Hi) as [Hp _].
    apply lookup_lt_Some in Hp.
    rewrite (inv_image _ _ _ _ Hinv), (inv_delay _ _ _ _ Hinv). done.
  - rewrite (inv_sem _ _ _ _ Hinv). apply count_nonneg.
  - rewrite (inv_wg _ _ _ _ Hinv). apply count_nonneg.
Qed.

(** X3. With at least one processing unit the pipeline cannot deadlock: in
    every state before the join some goroutine, or the main one, can take
    its next step. *)
Theorem pipeline_never_deadlocks sched :
  1 <= numcpus ->
  joined (run sched init) = false ->
  exists t s', step t (run sched init) = Some s'.
Proof. intros Hcpu Hj. apply progress; [done|apply inv_run|done]. Qed.

Lemma taken_measure sched s :
  inv s -> Z.of_nat (taken sched s) <= measure paths s.
Proof.
  revert s. induction sched as [|t sched IH]; intros s Hinv; simpl.
  - by apply measure_nonneg with (d := d) (fs := fs).
  - destruct (step t s) as [s'|] eqn:Hstep; [|by apply IH].
    pose proof (measure_step _ _ _ _ _ _ _ Hinv Hstep).
    pose proof (IH s' (inv_step _ _ _ _ _ _ _ Hinv Hstep)). lia.
Qed.

(** X4. The pipeline ends: whatever the schedule, the goroutines take at
    most nine steps per path and one together, and once [wg.Wait()] has
    returned no goroutine can take a step. *)
Theorem pipeline_terminates sched :
  (taken sched init <= 9 * length paths + 1)%nat
  ∧ (joined (run sched init) = true -> forall t, step t (run sched init) = None).
Proof.
  split.
  - pose proof (taken_measure sched init (inv_init _ _ _)) as H.
    unfold measure in H. simpl in H. lia.
  - intros Hj t. pose proof (inv_run sched) as Hinv.
    unfold Giffer.step. rewrite (inv_crashed _ _ _ _ Hinv).
    destruct t as [|i]; [unfold step_main; by rewrite Hj|].
    unfold step_task. destruct (tasks (run sched init) !! i) as [t|] eqn:Hi; [|done].
    by rewrite (joined_all_done _ _ _ _ _ _ Hinv Hj Hi).
Qed.


(** *** The books of the pipeline *)

Lemma tally_app P a b : tally P (a ++ b) = tally P a + tally P b.
Proof. induction a as [|t a IH]; simpl; lia. Qed.

Lemma tally_set_pc P i p ts t :
  ts !! i = Some t ->
  tally P (set_pc i p ts)
  = tally P ts - Z.b2z (P t) + Z.b2z (P {| jpeg := jpeg t; at_pc := p |}).
Proof.
  revert i. induction ts as [|t' ts IH]; intros [|i] H; simplify_eq/=.
  - lia.
  - rewrite (IH i H). lia.
Qed.

Lemma occurrences_app P a b : occurrences P (a ++ b) = occurrences P a + occurrences P b.
Proof. induction a as [|e a IH]; simpl; lia. Qed.

Lemma times_app path a b : times path (a ++ b) = times path a + times path b.
Proof. induction a as [|e a IH]; simpl; lia. Qed.

Lemma occurrences_debug P msg :
  P (Log DebugLevel msg) = false -> occurrences P (logrus v DebugLevel msg) = 0.
Proof. intros H. unfold logrus. destruct v; simpl; [by rewrite H|done]. Qed.

(** What [processJpeg] logs: nothing when it succeeds, one entry at error
    level, which is not the report of the goroutine, when it fails. *)
Lemma processJpeg_log path ev err frame :
  processJpeg fs path = (ev, (err, frame)) ->
  failed fs path = (if err is Some _ then true else false)
  ∧ occurrences is_report ev = 0
  ∧ occurrences is_error ev = Z.b2z (failed fs path).
Proof.
  intros H. unfold failed. rewrite H. simpl.
  unfold processJpeg in H.
  destruct (os_Open fs path) as [[e|bytes]|e]; simplify_eq/=; try done.
  destruct (jpeg_Decode bytes); by simplify_eq/=.
Qed.

Lemma ledger_init : ledger init.
Proof. by constructor. Qed.

Lemma ledger_step t s s' : ledger s -> step t s = Some s' -> ledger s'.
Proof.
  intros [Hbar Hdec Hrep Herr] Hstep. unfold Giffer.step in Hstep.
  destruct (crashed s); [done|]. destruct t as [|i].
  - unfold step_main in Hstep. destruct (joined s); [done|].
    destruct (paths !! length (tasks s)) as [path|].
    + simplify_eq. constructor; simpl; intros;
        rewrite ?count_app, ?tally_app; simpl; rewrite ?Hdec; lia.
    + destruct (wg s =? 0); [|done]. simplify_eq. by constructor.
  - unfold step_task in Hstep.
    destruct (tasks s !! i) as [t|] eqn:Hi; [|done].
    destruct (at_pc t) eqn:Hat;
      repeat match type of Hstep with
        | (if ?c then _ else _) = _ => destruct c eqn:?
        end;
      try (destruct (processJpeg fs (jpeg t)) as [ev [err frame]] eqn:Hp;
           destruct (processJpeg_log _ _ _ _ Hp) as (Hf & Hr & He));
      simplify_eq; try (by constructor);
      constructor; simpl; intros;
      rewrite ?(count_set_pc _ _ _ _ _ Hi), ?(tally_set_pc _ _ _ _ _ Hi), ?Hat,
        ?occurrences_app, ?times_app, ?occurrences_debug by done;
      simpl; rewrite ?Hdec, ?Hr, ?He; destruct t as [jp p]; simpl in *; subst;
      simpl; try lia.
    all: destruct err, v; simpl in *; rewrite ?Hf; simpl; lia.
Qed.

Lemma ledger_run sched : ledger (run sched init).
Proof.
  assert (H : forall s, ledger s -> ledger (run sched s)).
  { induction sched as [|t sched IH]; intros s Hs; simpl; [done|].
    destruct (step t s) as [s'|] eqn:Hstep; [|by apply IH].
    apply IH. by eapply ledger_step. }
  apply H, ledger_init.
Qed.


Lemma joined_jpegs s : inv s -> joined s = true -> jpeg <$> tasks s = paths.
Proof.
  intros Hinv Hj. apply list_eq. intros i. rewrite list_lookup_fmap.
  destruct (paths !! i) as [path|] eqn:Hp.
  - by rewrite (joined_task _ _ _ _ _ _ Hinv Hj Hp).
  - destruct (inv_joined _ _ _ _ Hinv Hj) as [Hlen _].
    apply lookup_ge_None in Hp. rewrite <- Hlen in Hp.
    apply lookup_ge_None in Hp. by rewrite Hp.
Qed.

Lemma done_books ts :
  Forall (fun t => at_pc t = Done) ts ->
  count past_unlock ts = Z.of_nat (length ts)
  ∧ (forall path,
       tally (fun t => past_decode (at_pc t) && String.eqb (jpeg t) path) ts
       = times path (jpeg <$> ts))
  ∧ tally (fun t => past_decode (at_pc t) && failed fs (jpeg t)) ts
    = failures fs (jpeg <$> ts).
Proof.
  induction 1 as [|t ts Ht _ (IH1 & IH2 & IH3)]; [done|].
  simpl. rewrite Ht, IH1, IH3. simpl. split; [lia|]. split; [|done].
  intros path. by rewrite IH2.
Qed.

Lemma joined_books sched :
  joined (run sched init) = true ->
  bar (run sched init) = Z.of_nat (length paths)
  ∧ (forall path, times path (decoded (run sched init)) = times path paths)
  ∧ occurrences is_report (events (run sched init)) = failures fs paths
  ∧ occurrences is_error (events (run sched init)) = 2 * failures fs paths.
Proof.
  intros Hj. pose proof (inv_run sched) as Hinv.
  destruct (ledger_run sched) as [Hbar Hdec Hrep Herr].
  assert (Hall : Forall (fun t => at_pc t = Done) (tasks (run sched init))).
  { apply Forall_lookup. intros i t Hi.
    by apply (joined_all_done _ _ _ _ _ _ Hinv Hj Hi). }
  destruct (done_books _ Hall) as (H1 & H2 & H3).
  destruct (inv_joined _ _ _ _ Hinv Hj) as [Hlen _].
  rewrite (joined_jpegs _ Hinv Hj) in H2, H3.
  rewrite Hbar, Herr, Hrep, H1, H3, Hlen. split; [done|]. split; [|done].
  intros path. by rewrite Hdec, H2.
Qed.

Lemma times_count_occ path l : times path l = Z.of_nat (count_occ string_dec l path).
Proof.
  induction l as [|p l IH]; [done|]. simpl. rewrite IH.
  destruct (string_dec p path) as [->|Hne].
  - rewrite String.eqb_refl. simpl. lia.
  - apply String.eqb_neq in Hne. rewrite Hne. simpl. lia.
Qed.

Lemma decoded_is_permutation sched :
  joined (run sched init) = true -> decoded (run sched init) ≡ₚ paths.
Proof.
  intros Hj. destruct (joined_books sched Hj) as (_ & Hdec & _).
  apply (Permutation.Permutation_count_occ string_dec). intros path.
  specialize (Hdec path). rewrite !times_count_occ in Hdec. lia.
Qed.

(** X5. When [wg.Wait()] has returned, every discovered path has been
    handed to [processJpeg] exactly once: the paths decoded, in the order of
    the calls, are a permutation of the discovered paths. *)
Theorem every_path_is_decoded_once sched :
  joined (run sched init) = true ->
  decoded (run sched init) ≡ₚ paths
  ∧ length (decoded (run sched init)) = length paths.
Proof.
  intros Hj. pose proof (decoded_is_permutation sched Hj) as Hperm.
  split; [done|]. by rewrite Hperm.
Qed.

(** X6. When [wg.Wait()] has returned, the progress bar has been incremented
    once per discovered path and the counter of the wait group is back at
    zero. *)
Theorem progress_bar_is_full sched :
  joined (run sched init) = true ->
  bar (run sched init) = Z.of_nat (length paths) ∧ wg (run sched init) = 0.
Proof.
  intros Hj. destruct (joined_books sched Hj) as (Hbar & _). split; [done|].
  pose proof (inv_run sched) as Hinv.
  rewrite (inv_wg _ _ _ _ Hinv). by destruct (inv_joined _ _ _ _ Hinv Hj).
Qed.

(** X7. When [wg.Wait()] has returned, the log holds the report of the
    goroutine, while processing jpeg file, once per path whose decode
    failed, and two entries at error level per such path: none at all when
    every file decoded. *)
Theorem failures_are_logged sched :
  joined (run sched init) = true ->
  occurrences is_report (events (run sched init)) = failures fs paths
  ∧ occurrences is_error (events (run sched init)) = 2 * failures fs paths
  ∧ (Forall (fun path => failed fs path = false) paths ->
     occurrences is_error (events (run sched init)) = 0).
Proof.
  intros Hj. destruct (joined_books sched Hj) as (_ & _ & Hrep & Herr).
  split; [done|]. split; [done|]. intros Hok. rewrite Herr.
  clear -Hok. induction Hok as [|p l Hp _ IH]; [done|]. simpl. rewrite Hp. simpl. lia.
Qed.

(** *** The debug flag *)

Lemma erase_step v1 v2 t s s' :
  erase s = erase s' ->
  erase <$> Giffer.step v1 d fs paths t s = erase <$> Giffer.step v2 d fs paths t s'.
Proof.
  destruct s, s'. intros [= -> -> -> -> -> -> -> -> ->].
  unfold Giffer.step. simpl. destruct crashed1; [done|]. destruct t as [|i].
  - unfold step_main. simpl. destruct joined1; [done|].
    destruct (paths !! length tasks1); [done|]. by destruct (wg1 =? 0).
  - unfold step_task. simpl. destruct (tasks1 !! i) as [t|]; [|done].
    destruct (at_pc t); simpl;
      repeat match goal with
        | |- context [if ?c then _ else _] => destruct c
        | |- context [let '(_, _) := ?c in _] => destruct c as [? [? ?]]
        end; done.
Qed.

Lemma erase_run v1 v2 sched : forall s s',
  erase s = erase s' ->
  erase (Giffer.run v1 d fs paths sched s) = erase (Giffer.run v2 d fs paths sched s').
Proof.
  induction sched as [|t sched IH]; intros s s' He; simpl; [done|].
  pose proof (erase_step v1 v2 t s s' He) as H.
  destruct (Giffer.step v1 d fs paths t s) as [s1|],
           (Giffer.step v2 d fs paths t s') as [s2|]; simpl in H; try done.
  - apply IH. congruence.
  - by apply IH.
Qed.

(** X8. The debug flag changes nothing but the log: under the same
    schedule the pipeline goes through the same states, with the same
    slots, counters and order of decoding, in debug mode and out of it. *)
Theorem debug_only_logs v1 v2 sched :
  erase (Giffer.run v1 d fs paths sched init) = erase (Giffer.run v2 d fs paths sched init).
Proof. by apply erase_run. Qed.

End PipelineMore.

(** ** More about the walk *)

Lemma walk_panics v n : forall path st,
  no_bad n = false -> walk (collect v) path n st = None.
Proof.
  induction n as [data|e| |es IH] using Node_nested_ind; intros path st Hnb;
    cbn [walk no_bad] in *; try done.
  destruct st as [ps ev]. rewrite collect_dir.
  generalize (ev ++ logrus v DebugLevel ("skipping dir " +:+ path)). clear ev.
  revert ps. induction IH as [|[name c] es Hc _ IHes]; intros ps ev; [done|].
  simpl in Hc. apply andb_false_iff in Hnb as [Hnb|Hnb].
  - destruct c as [data|listing|e]; [done|by rewrite (Hc _ _ Hnb)|done].
  - destruct (no_bad c) eqn:Hok.
    + destruct (walk_collects v c (Join path name) ps ev Hok) as [ev1 Hw].
      destruct c as [data|listing|e]; [rewrite Hw; by apply IHes|rewrite Hw; by apply IHes|done].
    + destruct c as [data|listing|e]; [done|by rewrite (Hc _ _ eq_refl)|done].
Qed.

Lemma Walk_outcome v fs root ps ev :
  (Walk (collect v) fs root (ps, ev) = None
   <-> match fs_find fs root with
       | None => True
       | Some n => no_bad n = false
       end)
  ∧ (forall r, Walk (collect v) fs root (ps, ev) = Some r ->
       exists n, fs_find fs root = Some n ∧ no_bad n = true
                 ∧ r.1 = None ∧ r.2.1 = ps ++ paths_of root n).
Proof.
  unfold Walk. destruct (fs_find fs root) as [n|] eqn:Hn.
  - destruct (no_bad n) eqn:Hnb.
    + destruct (walk_collects v n root ps ev Hnb) as [ev' ->]. split.
      * split; intros; done.
      * intros r [= <-]. eauto.
    + rewrite (walk_panics v n root (ps, ev) Hnb). split; [done|]. by intros r.
  - simpl. split; [done|]. by intros r.
Qed.

(** X9. The walk of [main] panics exactly when [Lstat] fails on a name it
    reaches, the root included (a root that does not exist): the callback
    calls [info.IsDir()] on the nil [info]. In every other case it returns
    nil and has appended, to the paths it was given, the eligible names of
    the tree in the order of the walk. *)
Theorem walk_panics_on_lstat_failure v fs root ps ev :
  (Walk (collect v) fs root (ps, ev) = None
   <-> match fs_find fs root with
       | None => True
       | Some n => no_bad n = false
       end)
  ∧ (forall r, Walk (collect v) fs root (ps, ev) = Some r ->
       exists n, fs_find fs root = Some n ∧ no_bad n = true
                 ∧ r.1 = None ∧ r.2.1 = ps ++ paths_of root n).
Proof. apply Walk_outcome. Qed.

Lemma append_cons x (a b : string) : String x a +:+ b = String x (a +:+ b).
Proof. reflexivity. Qed.

Lemma paths_are_eligible n : forall path,
  Forall (fun q => is_jpeg q = true) (paths_of path n).
Proof.
  induction n as [data|e| |es IH] using Node_nested_ind; intros path;
    cbn [paths_of]; try done.
  - destruct (is_jpeg path) eqn:Hj; [|done]. by apply Forall_cons.
  - induction IH as [|[name c] es Hc _ IHes]; [done|]. simpl in Hc.
    apply Forall_app. split; [apply Hc|done].
Qed.

(** X10. What the walk collects: every collected path has a JPEG
    extension. A root that is a directory is not a candidate itself,
    whatever its name: the paths are those of its entries, one entry after
    the other, and none when it has no entry or cannot be listed. *)
Theorem collected_paths_are_eligible v fs root ev ps ev' :
  Walk (collect v) fs root ([], ev) = Some (None, (ps, ev')) ->
  Forall (fun q => is_jpeg q = true) ps
  ∧ (forall names, fs_find fs root = Some (Dir (Some names)) ->
       ps = flat_map (fun e => paths_of (Join root e.1) e.2) names)
  ∧ (fs_find fs root = Some (Dir None) ∨ fs_find fs root = Some (Dir (Some [])) ->
     ps = []).
Proof.
  intros Hw.
  destruct (Walk_outcome v fs root [] ev) as [_ H].
  destruct (H _ Hw) as (n & Hn & _ & _ & Hps). simpl in Hps. subst ps.
  split; [apply paths_are_eligible|]. split.
  - intros names Hd. rewrite Hn in Hd. injection Hd as ->. apply paths_of_entries.
  - intros [Hd|Hd]; rewrite Hn in Hd; by injection Hd as ->.
Qed.

(** *** The extension test *)

Lemma list_ascii_of_string_app (a b : string) :
  list_ascii_of_string (a +:+ b) = list_ascii_of_string a ++ list_ascii_of_string b.
Proof. induction a as [|x a IH]; [done|]. rewrite append_cons. simpl. by rewrite IH. Qed.

Lemma Ext_loop_sep l : forall acc r,
  forallb (fun c => negb (IsPathSeparator c)) l = true ->
  Ext_loop (l ++ "/"%char :: r) acc = Ext_loop l acc.
Proof.
  induction l as [|c l IH]; intros acc r H; simpl in *; [done|].
  apply andb_prop in H as [Hc Hl]. apply negb_true_iff in Hc. rewrite Hc.
  destruct (Ascii.eqb c "."); [done|]. by apply IH.
Qed.

Lemma Ext_loop_dot l : forall acc r,
  forallb plain l = true ->
  Ext_loop (l ++ "."%char :: r) acc = "."%char :: (rev l ++ acc).
Proof.
  induction l as [|c l IH]; intros acc r H; simpl in *; [done|].
  apply andb_prop in H as [Hc Hl]. unfold plain in Hc.
  apply andb_prop in Hc as [Hs Hd].
  apply negb_true_iff in Hs. apply negb_true_iff in Hd. rewrite Hs, Hd.
  rewrite (IH _ _ Hl). by rewrite <- (assoc_L (++)).
Qed.

Lemma Ext_loop_none l : forall acc,
  forallb plain l = true -> Ext_loop l acc = [].
Proof.
  induction l as [|c l IH]; intros acc H; simpl in *; [done|].
  apply andb_prop in H as [Hc Hl]. unfold plain in Hc.
  apply andb_prop in Hc as [Hs Hd].
  apply negb_true_iff in Hs. apply negb_true_iff in Hd. rewrite Hs, Hd. by apply IH.
Qed.

Lemma Ext_below dir name :
  forallb (fun c => negb (IsPathSeparator c)) (list_ascii_of_string name) = true ->
  Ext (dir +:+ "/" +:+ name) = Ext name.
Proof.
  intros H. unfold Ext. rewrite !list_ascii_of_string_app. simpl.
  rewrite rev_app_distr. simpl. rewrite <- (assoc_L (++)). simpl.
  rewrite Ext_loop_sep; [done|].
  rewrite forallb_forall in *. intros c Hc. apply H. by apply in_rev.
Qed.

Lemma Ext_Join dir name :
  forallb (fun c => negb (IsPathSeparator c)) (list_ascii_of_string name) = true ->
  Ext (Join dir name) = Ext name.
Proof.
  intros H. unfold Join.
  destruct (String.eqb (Clean dir) "."); [done|].
  destruct (String.eqb (Clean dir) "/") eqn:E; [|by apply Ext_below].
  apply String.eqb_eq in E. rewrite E. by apply (Ext_below "").
Qed.

Lemma forallb_rev {A} (P : A -> bool) l : forallb P (rev l) = forallb P l.
Proof.
  apply eq_true_iff_eq. rewrite !forallb_forall. split; intros H x Hx; apply H.
  - by apply in_rev in Hx.
  - by apply in_rev.
Qed.

Lemma Ext_dot stem ext :
  forallb plain (list_ascii_of_string ext) = true ->
  Ext (stem +:+ "." +:+ ext) = "." +:+ ext.
Proof.
  intros H. unfold Ext. rewrite !list_ascii_of_string_app. simpl.
  rewrite rev_app_distr. simpl. rewrite <- (assoc_L (++)). simpl.
  rewrite Ext_loop_dot by (by rewrite forallb_rev).
  rewrite rev_involutive, app_nil_r. simpl. by rewrite string_of_list_ascii_of_string.
Qed.

Lemma lower_String a s : lower (String a s) = String (to_lower a) (lower s).
Proof. done. Qed.

Lemma EqualFold_lower s : forall t, EqualFold s t = String.eqb (lower s) (lower t).
Proof.
  induction s as [|a s IH]; intros [|b t]; try done.
  rewrite !lower_String. simpl. rewrite IH. by destruct (Ascii.eqb (to_lower a) (to_lower b)).
Qed.

Lemma TrimPrefix_dot ext : TrimPrefix ("." +:+ ext) "." = ext.
Proof. by destruct ext. Qed.

Lemma is_jpeg_dot stem ext :
  forallb plain (list_ascii_of_string ext) = true ->
  is_jpeg (stem +:+ "." +:+ ext) = true <-> lower ext = "jpg" ∨ lower ext = "jpeg".
Proof.
  intros H. unfold is_jpeg. rewrite (Ext_dot _ _ H).
  rewrite TrimPrefix_dot.
  rewrite !EqualFold_lower, orb_true_iff, !String.eqb_eq. done.
Qed.

(** X11. Which names are eligible. Only the last element of a path counts:
    the directories above a name change nothing. A name [stem.ext], where
    [ext] has no dot, is eligible exactly when [ext], in lower case, is
    [jpg] or [jpeg]; a name without a dot is not eligible. *)
Theorem eligibility_is_by_extension dir name :
  forallb (fun c => negb (IsPathSeparator c)) (list_ascii_of_string name) = true ->
  is_jpeg (Join dir name) = is_jpeg name
  ∧ (forall stem ext, name = stem +:+ "." +:+ ext ->
       forallb plain (list_ascii_of_string ext) = true ->
       (is_jpeg (Join dir name) = true <-> lower ext = "jpg" ∨ lower ext = "jpeg"))
  ∧ (forallb plain (list_ascii_of_string name) = true -> is_jpeg (Join dir name) = false).
Proof.
  intros Hsep.
  assert (Hj : is_jpeg (Join dir name) = is_jpeg name).
  { unfold is_jpeg. by rewrite (Ext_Join _ _ Hsep). }
  split; [done|]. rewrite Hj. split.
  - intros stem ext -> Hext. by apply is_jpeg_dot.
  - intros Hp. unfold is_jpeg, Ext.
    rewrite Ext_loop_none by (by rewrite forallb_rev). done.
Qed.


(** ** More about [processJpeg] and [main] *)

Lemma frame_of_nil fs path :
  frame_of fs path = None
  <-> failed fs path = true
      ∨ exists bytes, os_Open fs path = inl (inr bytes)
                      ∧ jpeg_Decode bytes = inl (image.IsPaletted None).
Proof.
  unfold frame_of, failed, processJpeg.
  destruct (os_Open fs path) as [[e|bytes]|e]; simpl.
  - split; [by left|done].
  - destruct (jpeg_Decode bytes) as [[pm|b at_]|e] eqn:Hd; simpl.
    + split.
      * intros ->. right. by exists bytes.
      * intros [?|(bytes' & [= <-] & Hd')]; [done|]. rewrite Hd in Hd'. by simplify_eq.
    + split; [done|]. intros [?|(bytes' & [= <-] & Hd')]; [done|].
      rewrite Hd in Hd'. by simplify_eq.
    + split; [by left|done].
  - split; [by left|done].
Qed.

(** X13. After the join the slot of a path is nil exactly when
    [processJpeg] failed on it, or the decoder returned a nil
    [*image.Paletted], which [imageToPaletted] passes through; an image of
    any other type always gives a frame. *)
Theorem nil_slot_means_failure v d fs paths sched i path :
  joined (run v d fs paths sched (pipeline_init paths)) = true ->
  paths !! i = Some path ->
  Image (gifInfo (run v d fs paths sched (pipeline_init paths))) !! i = Some None
  <-> failed fs path = true
      ∨ exists bytes, os_Open fs path = inl (inr bytes)
                      ∧ jpeg_Decode bytes = inl (image.IsPaletted None).
Proof.
  intros Hj Hp.
  rewrite (joined_frames _ _ _ _ (inv_run v d fs paths sched) Hj), list_lookup_fmap, Hp.
  simpl. rewrite <- frame_of_nil. split; [by intros [= ->]|by intros ->].
Qed.

Lemma main_reaches_assemble f other sched fs dirname imgPaths ev :
  version f = false ->
  os_IsNotExist (os_Stat fs (outfile f)).2 = true ->
  args f = [dirname] ->
  Walk (collect (verbose f)) fs dirname ([], startup f) = Some (None, (imgPaths, ev)) ->
  imgPaths ≠ [] ->
  main f other sched fs = assemble f other sched fs imgPaths ev.
Proof.
  intros Hv Hs Ha Hw Hne. unfold main, assemble. rewrite Hv, Hs, Ha, Hw.
  by destruct imgPaths.
Qed.

Lemma assemble_joined f other sched fs imgPaths ev :
  joined (run (verbose f) (delayMs f) fs imgPaths sched (pipeline_init imgPaths)) = true ->
  fs_after (assemble f other sched fs imgPaths ev)
  = match os_OpenFile (other fs) (outfile f) out_flags ModePerm with
    | inr _ => other fs
    | inl fs2 =>
        fs_write fs2 (outfile f)
          (written (gif_EncodeAll
             {| Image := frame_of fs <$> imgPaths;
                Delay := replicate (length imgPaths) (delay_ticks (delayMs f)) |}))
    end
  ∧ opened (assemble f other sched fs imgPaths ev) ≡ₚ imgPaths
  ∧ (exit (assemble f other sched fs imgPaths ev) = Panicked ->
     exists fs2 w,
       os_OpenFile (other fs) (outfile f) out_flags ModePerm = inl fs2
       ∧ gif_EncodeAll
           {| Image := frame_of fs <$> imgPaths;
              Delay := replicate (length imgPaths) (delay_ticks (delayMs f)) |}
         = EncodePanic w).
Proof.
  intros Hj.
  pose proof (inv_run (verbose f) (delayMs f) fs imgPaths sched) as Hinv.
  pose proof (joined_frames _ _ _ _ Hinv Hj) as HI.
  pose proof (joined_delays _ _ _ _ Hinv Hj) as HD.
  pose proof (decoded_is_permutation _ _ _ _ _ Hj) as Hperm.
  assert (Hg : gifInfo (run (verbose f) (delayMs f) fs imgPaths sched (pipeline_init imgPaths))
               = {| Image := frame_of fs <$> imgPaths;
                    Delay := replicate (length imgPaths) (delay_ticks (delayMs f)) |}).
  { destruct (gifInfo _). simpl in *. by subst. }
  unfold assemble. rewrite (inv_crashed _ _ _ _ Hinv), Hj, Hg. simpl.
  destruct (os_OpenFile (other fs) (outfile f) out_flags ModePerm) as [fs2|err]; simpl.
  - destruct (gif_EncodeAll _) as [w|w|w] eqn:He; simpl; repeat split; try done.
    intros _. eauto.
  - done.
Qed.

(** X14. When no file is at the output path by the time of the open and
    the open, which then is a creation, succeeds, the file holds afterwards
    exactly the bytes the encoder wrote for the frames and delays in the
    order of the paths. *)
Theorem output_holds_the_encoding f other sched fs dirname imgPaths ev fs2 :
  version f = false ->
  os_IsNotExist (os_Stat fs (outfile f)).2 = true ->
  args f = [dirname] ->
  Walk (collect (verbose f)) fs dirname ([], startup f) = Some (None, (imgPaths, ev)) ->
  imgPaths ≠ [] ->
  joined (run (verbose f) (delayMs f) fs imgPaths sched (pipeline_init imgPaths)) = true ->
  fs_find (other fs) (outfile f) = None ->
  os_OpenFile (other fs) (outfile f) out_flags ModePerm = inl fs2 ->
  fs_find (fs_after (main f other sched fs)) (outfile f)
  = Some (Reg (Some (written (gif_EncodeAll
       {| Image := frame_of fs <$> imgPaths;
          Delay := replicate (length imgPaths) (delay_ticks (delayMs f)) |})))).
Proof.
  intros Hv Hs Ha Hw Hne Hj Hnone Ho.
  rewrite (main_reaches_assemble _ _ _ _ _ _ _ Hv Hs Ha Hw Hne).
  destruct (assemble_joined f other sched fs imgPaths ev Hj) as (-> & _).
  rewrite Ho, (fs_write_content _ _ []); [|by eapply open_fresh].
  unfold overwrite. by rewrite drop_nil, app_nil_r.
Qed.

(** X15. The output file is opened without truncation: when a regular file
    is at the output path by the time of the open and the open succeeds,
    the encoding is written over its beginning and the bytes of the old
    file beyond the length of the encoding stay. *)
Theorem old_tail_survives f other sched fs dirname imgPaths ev old fs2 :
  version f = false ->
  os_IsNotExist (os_Stat fs (outfile f)).2 = true ->
  args f = [dirname] ->
  Walk (collect (verbose f)) fs dirname ([], startup f) = Some (None, (imgPaths, ev)) ->
  imgPaths ≠ [] ->
  joined (run (verbose f) (delayMs f) fs imgPaths sched (pipeline_init imgPaths)) = true ->
  fs_find (other fs) (outfile f) = Some (Reg (Some old)) ->
  os_OpenFile (other fs) (outfile f) out_flags ModePerm = inl fs2 ->
  let w := written (gif_EncodeAll
             {| Image := frame_of fs <$> imgPaths;
                Delay := replicate (length imgPaths) (delay_ticks (delayMs f)) |}) in
  fs_find (fs_after (main f other sched fs)) (outfile f)
  = Some (Reg (Some (w ++ drop (length w) old))).
Proof.
  intros Hv Hs Ha Hw Hne Hj Hold Ho w.
  rewrite (main_reaches_assemble _ _ _ _ _ _ _ Hv Hs Ha Hw Hne).
  destruct (assemble_joined f other sched fs imgPaths ev Hj) as (-> & _).
  rewrite Ho. rewrite (open_existing _ _ _ Hold) in Ho. injection Ho as <-.
  by rewrite (fs_write_content _ _ old).
Qed.

(** X17. [main] leaves the file system as it found it unless every
    discovered path has been handed to [processJpeg]: whenever the file
    system after the run differs from the one before, the walk had returned
    a list of paths that is not empty and the paths opened are a permutation
    of it. *)
Theorem nothing_written_before_decoding f other sched fs :
  fs_after (main f other sched fs) ≠ fs ->
  exists dirname imgPaths ev,
    args f = [dirname]
    ∧ Walk (collect (verbose f)) fs dirname ([], startup f) = Some (None, (imgPaths, ev))
    ∧ imgPaths ≠ []
    ∧ opened (main f other sched fs) ≡ₚ imgPaths.
Proof.
  intros Hp.
  destruct (version f) eqn:Hv; [unfold main in Hp; by rewrite Hv in Hp|].
  destruct (os_IsNotExist (os_Stat fs (outfile f)).2) eqn:Hs;
    [|unfold main in Hp; by rewrite Hv, Hs in Hp].
  destruct (args f) as [|dirname [|]] eqn:Ha;
    [unfold main in Hp; by rewrite Hv, Hs, Ha in Hp| |unfold main in Hp; by rewrite Hv, Hs, Ha in Hp].
  destruct (Walk (collect (verbose f)) fs dirname ([], startup f))
    as [[[err|] [imgPaths ev]]|] eqn:Hw;
    [unfold main in Hp; by rewrite Hv, Hs, Ha, Hw in Hp|
    |unfold main in Hp; by rewrite Hv, Hs, Ha, Hw in Hp].
  destruct (decide (imgPaths = [])) as [->|Hne].
  { unfold main in Hp. by rewrite Hv, Hs, Ha, Hw in Hp. }
  exists dirname, imgPaths, ev. repeat split; try done.
  rewrite (main_reaches_assemble _ _ _ _ _ _ _ Hv Hs Ha Hw Hne) in *.
  destruct (joined (run (verbose f) (delayMs f) fs imgPaths sched (pipeline_init imgPaths)))
    eqn:Hj.
  - by destruct (assemble_joined f other sched fs imgPaths ev Hj) as (_ & ? & _).
  - unfold assemble in Hp.
    rewrite (inv_crashed _ _ _ _ (inv_run (verbose f) (delayMs f) fs imgPaths sched)), Hj in Hp.
    done.
Qed.

Lemma assemble_exit f other sched fs imgPaths ev :
  joined (run (verbose f) (delayMs f) fs imgPaths sched (pipeline_init imgPaths)) = true ->
  exit (assemble f other sched fs imgPaths ev)
  = match os_OpenFile (other fs) (outfile f) out_flags ModePerm with
    | inr _ => Returned
    | inl _ =>
        match gif_EncodeAll
                {| Image := frame_of fs <$> imgPaths;
                   Delay := replicate (length imgPaths) (delay_ticks (delayMs f)) |} with
        | EncodePanic _ => Panicked
        | _ => Returned
        end
    end.
Proof.
  intros Hj.
  pose proof (inv_run (verbose f) (delayMs f) fs imgPaths sched) as Hinv.
  pose proof (joined_frames _ _ _ _ Hinv Hj) as HI.
  pose proof (joined_delays _ _ _ _ Hinv Hj) as HD.
  assert (Hg : gifInfo (run (verbose f) (delayMs f) fs imgPaths sched (pipeline_init imgPaths))
               = {| Image := frame_of fs <$> imgPaths;
                    Delay := replicate (length imgPaths) (delay_ticks (delayMs f)) |}).
  { destruct (gifInfo _). simpl in *. by subst. }
  unfold assemble. rewrite (inv_crashed _ _ _ _ Hinv), Hj, Hg. simpl.
  destruct (os_OpenFile (other fs) (outfile f) out_flags ModePerm) as [fs2|err]; [|done].
  by destruct (gif_EncodeAll _).
Qed.

Lemma assemble_blocked f other sched fs imgPaths ev :
  joined (run (verbose f) (delayMs f) fs imgPaths sched (pipeline_init imgPaths)) = false ->
  assemble f other sched fs imgPaths ev
  = {| exit := Blocked; fs_after := fs;
       output := ev ++ events (run (verbose f) (delayMs f) fs imgPaths sched
                                 (pipeline_init imgPaths));
       opened := decoded (run (verbose f) (delayMs f) fs imgPaths sched
                            (pipeline_init imgPaths)) |}.
Proof.
  intros Hj. unfold assemble.
  by rewrite (inv_crashed _ _ _ _ (inv_run (verbose f) (delayMs f) fs imgPaths sched)), Hj.
Qed.

(** X18. The debug flag changes only what is printed and logged: with the
    same command line otherwise, the same schedule and the same file
    system, a run in debug mode and a run out of it end the same way, leave
    the same file system and open the same files in the same order. *)
Theorem debug_flag_only_changes_output f other sched fs v1 v2 :
  exit (main (with_verbose v1 f) other sched fs)
  = exit (main (with_verbose v2 f) other sched fs)
  ∧ fs_after (main (with_verbose v1 f) other sched fs)
    = fs_after (main (with_verbose v2 f) other sched fs)
  ∧ opened (main (with_verbose v1 f) other sched fs)
    = opened (main (with_verbose v2 f) other sched fs).
Proof.
  unfold main. simpl.
  destruct (version f); [done|].
  destruct (negb (os_IsNotExist (os_Stat fs (outfile f)).2)); [done|].
  destruct (args f) as [|dirname [|]]; try done.
  destruct (Walk_outcome v1 fs dirname [] (startup (with_verbose v1 f))) as [Hn1 Hs1].
  destruct (Walk_outcome v2 fs dirname [] (startup (with_verbose v2 f))) as [Hn2 Hs2].
  destruct (Walk (collect v1) fs dirname ([], startup (with_verbose v1 f)))
    as [[e1 [ps1 ev1]]|] eqn:Hw1;
  destruct (Walk (collect v2) fs dirname ([], startup (with_verbose v2 f)))
    as [[e2 [ps2 ev2]]|] eqn:Hw2.
  - destruct (Hs1 _ eq_refl) as (n1 & Hf1 & _ & He1 & Hp1).
    destruct (Hs2 _ eq_refl) as (n2 & Hf2 & _ & He2 & Hp2).
    simpl in *. subst. rewrite Hf1 in Hf2. injection Hf2 as <-.
    destruct (paths_of dirname n1) as [|p ps] eqn:Hps; [done|].
    rewrite <- Hps. generalize (paths_of dirname n1). intros imgPaths.
    pose proof (erase_run (delayMs f) fs imgPaths v1 v2 sched
                  (pipeline_init imgPaths) (pipeline_init imgPaths) eq_refl) as He.
    apply (f_equal (fun s => (crashed s, joined s, gifInfo s, decoded s))) in He.
    simpl in He. injection He as -> -> -> ->.
    destruct (length imgPaths =? 0)%nat; [done|].
    destruct (crashed _); [done|]. destruct (negb (joined _)); [done|].
    destruct (os_OpenFile _ _ _ _); [|done]. by destruct (gif_EncodeAll _).
  - destruct (Hs1 _ eq_refl) as (n1 & Hf1 & Hb1 & _).
    rewrite Hf1 in Hn2. destruct Hn2 as [Hn2 _]. rewrite Hn2 in Hb1; done.
  - destruct (Hs2 _ eq_refl) as (n2 & Hf2 & Hb2 & _).
    rewrite Hf2 in Hn1. destruct Hn1 as [Hn1 _]. rewrite Hn1 in Hb2; done.
  - done.
Qed.

(** X19. The two revisions of [main] agree on every run with one argument
    whose walk does not return an empty list of paths: the later one only
    adds the usage text, the message for too many arguments and the stop on
    an empty list. *)
Theorem earlier_main_agrees argv0 f other sched fs dirname :
  version f = false ->
  args f = [dirname] ->
  (forall ev, Walk (collect (verbose f)) fs dirname ([], startup f) ≠ Some (None, ([], ev))) ->
  main_001 argv0 f other sched fs = main f other sched fs.
Proof.
  intros Hv Ha Hne. unfold main_001, main. rewrite Hv, Ha.
  destruct (negb (os_IsNotExist (os_Stat fs (outfile f)).2)); [done|].
  destruct (Walk (collect (verbose f)) fs dirname ([], startup f))
    as [[[err|] [imgPaths ev]]|] eqn:Hw; try done.
  destruct imgPaths as [|p ps]; [by destruct (Hne ev)|]. done.
Qed.

(** X20. The earlier [main] does not stop on an empty list of paths: when
    the walk finds no eligible file and the output path can be opened, it
    creates the output file and hands the encoder an empty sequence; the
    later [main] leaves the file system as it was on the same input. *)
Theorem earlier_main_creates_empty_output argv0 f other sched fs dirname ev fs2 :
  version f = false ->
  os_IsNotExist (os_Stat fs (outfile f)).2 = true ->
  args f = [dirname] ->
  Walk (collect (verbose f)) fs dirname ([], startup f) = Some (None, ([], ev)) ->
  joined (run (verbose f) (delayMs f) fs [] sched (pipeline_init [])) = true ->
  os_OpenFile (other fs) (outfile f) out_flags ModePerm = inl fs2 ->
  fs_after (main_001 argv0 f other sched fs)
  = fs_write fs2 (outfile f) (written (gif_EncodeAll {| Image := []; Delay := [] |}))
  ∧ (exists data,
       fs_find (fs_after (main_001 argv0 f other sched fs)) (outfile f) = Some (Reg data))
  ∧ fs_after (main f other sched fs) = fs.
Proof.
  intros Hv Hs Ha Hw Hj Ho.
  assert (H1 : fs_after (main_001 argv0 f other sched fs)
               = fs_write fs2 (outfile f)
                   (written (gif_EncodeAll {| Image := []; Delay := [] |}))).
  { unfold main_001. rewrite Hv, Hs, Ha, Hw. simpl.
    destruct (assemble_joined f other sched fs [] ev Hj) as (-> & _). by rewrite Ho. }
  split; [done|]. split.
  - rewrite H1. destruct (open_output_exists _ _ _ Ho) as [data Hd].
    by eapply fs_write_exists.
  - unfold main. by rewrite Hv, Hs, Ha, Hw.
Qed.

End Giffer.

(** ** The theorems on the sample data *)

Lemma frames_follow_paths_witness :
  Image (gifInfo (run Sample.decode Sample.quantize 2 false 100 Sample.pics
                    Sample.pics_paths Sample.sched (pipeline_init Sample.pics_paths)))
  = [Some Sample.frame; None; Some Sample.frame].
Proof.
  destruct (frames_follow_paths Sample.decode Sample.quantize 2 false 100
              Sample.pics Sample.pics_paths) as [_ H]; [lia|].
  destruct (H Sample.sched) as [HI _]; [reflexivity|]. exact HI.
Defined.

Lemma slots_stay_aligned_witness :
  length (Image (gifInfo (run Sample.decode Sample.quantize 2 false 100 Sample.pics
                            Sample.pics_paths Sample.sched
                            (pipeline_init Sample.pics_paths)))) = 3%nat
  ∧ Image (gifInfo (run Sample.decode Sample.quantize 2 false 100 Sample.pics
                      Sample.pics_paths Sample.sched
                      (pipeline_init Sample.pics_paths))) !! 1%nat = Some None
  ∧ Image (gifInfo (run Sample.decode Sample.quantize 2 false 100 Sample.pics
                      Sample.pics_paths Sample.sched
                      (pipeline_init Sample.pics_paths))) !! 2%nat
    = Some (Some Sample.frame).
Proof.
  destruct (slots_stay_aligned Sample.decode Sample.quantize 2 false 100
              Sample.pics Sample.pics_paths Sample.sched) as (HI & _ & HJ).
  split; [exact HI|].
  destruct (HJ eq_refl 1%nat "pics/b.JPEG" eq_refl) as [Hn Ho];
    [vm_compute; discriminate|].
  split; [exact Hn|]. apply (Ho 2%nat "pics/sub/c.jpeg"); [lia|reflexivity].
Defined.

Lemma delay_is_uniform_witness :
  Delay (gifInfo (run Sample.decode Sample.quantize 2 false 100 Sample.pics
                    Sample.pics_paths Sample.sched (pipeline_init Sample.pics_paths)))
  = [10; 10; 10].
Proof.
  destruct (delay_is_uniform Sample.decode Sample.quantize 2 false 100
              Sample.pics Sample.pics_paths Sample.sched) as (_ & _ & H);
    [lia|reflexivity|].
  exact (H eq_refl).
Defined.

Lemma region_is_bounded_witness :
  count in_region
    (tasks (run Sample.decode Sample.quantize 2 false 100 Sample.pics
              Sample.pics_paths Sample.crowded (pipeline_init Sample.pics_paths)))
  <= 2.
Proof.
  apply (region_is_bounded Sample.decode Sample.quantize 2 false 100
           Sample.pics Sample.pics_paths Sample.crowded). lia.
Defined.

Lemma walk_never_reports_witness :
  exists ev, Walk (collect false) Sample.good "pics" ([], [])
             = Some (None, (Sample.good_paths, ev)).
Proof.
  destruct (walk_never_reports false Sample.good "pics" [] []) as (_ & H & _).
  exact (H _ eq_refl eq_refl).
Defined.

Lemma stat_failure_is_refusal_witness :
  main Sample.decode Sample.quantize Sample.encode 2 Sample.flags id Sample.sched
    Sample.denied
  = refused Sample.flags Sample.denied.
Proof.
  apply stat_failure_is_refusal; [reflexivity|vm_compute; discriminate].
Defined.

Lemma existing_output_is_refused_witness :
  (fs_after (main Sample.decode Sample.quantize Sample.encode 2 Sample.flags id
               Sample.sched (Sample.racing Sample.good))
   = Sample.racing Sample.good
   ∧ opened (main Sample.decode Sample.quantize Sample.encode 2 Sample.flags id
               Sample.sched (Sample.racing Sample.good)) = [])
  ∧ fs_after (main Sample.decode Sample.quantize Sample.encode 2 Sample.flags
                Sample.racing Sample.sched Sample.good)
    = fs_write (Sample.racing Sample.good) "output.gif" [x47; x49; x46].
Proof.
  destruct (existing_output_is_refused Sample.decode Sample.quantize Sample.encode 2)
    as [H1 H2].
  split.
  - destruct (H1 Sample.flags id Sample.sched (Sample.racing Sample.good) eq_refl)
      as (Hfs & Hop & _).
    split; [exact Hfs|exact Hop].
  - destruct (H2 Sample.flags Sample.racing Sample.sched Sample.good "pics"
                Sample.good_paths [] (Sample.racing Sample.good))
      as (old & _ & Hfs & _);
      [reflexivity|reflexivity|reflexivity|reflexivity|discriminate|reflexivity
      |reflexivity|].
    exact Hfs.
Defined.

Lemma no_input_is_reported_witness :
  main Sample.decode Sample.quantize Sample.encode 2 Sample.flags id Sample.sched
    Sample.empty_dir
  = {| exit := Returned; fs_after := Sample.empty_dir;
       output := [Log ErrorLevel "could not find any jpeg files at provided path"];
       opened := [] |}.
Proof.
  apply (no_input_is_reported Sample.decode Sample.quantize Sample.encode 2
           Sample.flags id Sample.sched Sample.empty_dir "pics" []); reflexivity.
Defined.

Lemma failed_decode_reaches_output_witness :
  exists data,
    fs_find (fs_after (main Sample.decode Sample.quantize Sample.encode 2 Sample.flags
                         id Sample.sched Sample.pics)) "output.gif"
    = Some (Reg data).
Proof.
  destruct (failed_decode_reaches_output Sample.decode Sample.quantize Sample.encode 2
              Sample.flags id Sample.sched Sample.pics "pics" Sample.pics_paths []
              1%nat "pics/b.JPEG" (Sample.pics ++ [("output.gif", Reg (Some []))]))
    as (_ & _ & H);
    [reflexivity|reflexivity|reflexivity|reflexivity|reflexivity|reflexivity
    |vm_compute; discriminate|reflexivity|].
  exact H.
Defined.

(** ** Where the code departs from its description *)

(** C2. A run over two valid files and a corrupt one: the decode of the
    corrupt file fails, there was no output file, and after the run there is
    one. *)
Lemma failed_decode_leaves_output :
  decode_fails Sample.decode Sample.quantize Sample.pics "pics/b.JPEG"
  ∧ fs_find Sample.pics "output.gif" = None
  ∧ fs_find (fs_after (main Sample.decode Sample.quantize Sample.encode 2 Sample.flags
                         id Sample.sched Sample.pics)) "output.gif"
    = Some (Reg (Some [])).
Proof. split; [vm_compute; discriminate|]. split; reflexivity. Qed.

(** C4. The output file appears while the images are processed: it is there
    when [main] opens it, the open succeeds, and the run writes over it
    without an error. *)
Lemma racing_output_is_overwritten :
  fs_find Sample.good "output.gif" = None
  ∧ fs_find (Sample.racing Sample.good) "output.gif"
    = Some (Reg (Some [x01; x02; x03; x04]))
  ∧ os_OpenFile (Sample.racing Sample.good) "output.gif" out_flags ModePerm
    = inl (Sample.racing Sample.good)
  ∧ exit (main Sample.decode Sample.quantize Sample.encode 2 Sample.flags
            Sample.racing Sample.sched Sample.good) = Returned
  ∧ fs_find (fs_after (main Sample.decode Sample.quantize Sample.encode 2 Sample.flags
                         Sample.racing Sample.sched Sample.good)) "output.gif"
    = Some (Reg (Some [x47; x49; x46; x04])).
Proof. repeat split; reflexivity. Qed.

(** C5. A root that is a regular file and a root that cannot be listed
    cannot be traversed, and the walk returns without an error on both. *)
Lemma walk_error_is_not_exact :
  traversable Sample.single "shot.jpg" = false
  ∧ walk_error (Walk (collect false) Sample.single "shot.jpg" ([], [])) = false
  ∧ Walk (collect false) Sample.single "shot.jpg" ([], []) = Some (None, (["shot.jpg"], []))
  ∧ traversable Sample.locked_root "pics" = false
  ∧ walk_error (Walk (collect false) Sample.locked_root "pics" ([], [])) = false.
Proof. repeat split; reflexivity. Qed.

(** ** The worker budget and the schedule *)

(** X21. The slots after the join do not depend on the number of
    processing units, on the schedule or on the debug flag: any two runs of
    the pipeline over the same paths that reach the join hold the same
    frames and delays. *)
Theorem slots_do_not_depend_on_schedule jpeg_Decode Quantize n1 n2 v1 v2 d fs paths
    sched1 sched2 :
  joined (run jpeg_Decode Quantize n1 v1 d fs paths sched1 (pipeline_init paths)) = true ->
  joined (run jpeg_Decode Quantize n2 v2 d fs paths sched2 (pipeline_init paths)) = true ->
  gifInfo (run jpeg_Decode Quantize n1 v1 d fs paths sched1 (pipeline_init paths))
  = gifInfo (run jpeg_Decode Quantize n2 v2 d fs paths sched2 (pipeline_init paths)).
Proof.
  intros H1 H2.
  pose proof (inv_run jpeg_Decode Quantize n1 v1 d fs paths sched1) as I1.
  pose proof (inv_run jpeg_Decode Quantize n2 v2 d fs paths sched2) as I2.
  pose proof (joined_frames _ _ _ _ _ _ _ I1 H1) as F1.
  pose proof (joined_frames _ _ _ _ _ _ _ I2 H2) as F2.
  pose proof (joined_delays _ _ _ _ _ _ _ I1 H1) as D1.
  pose proof (joined_delays _ _ _ _ _ _ _ I2 H2) as D2.
  destruct (gifInfo (run jpeg_Decode Quantize n1 v1 d fs paths sched1 _)),
           (gifInfo (run jpeg_Decode Quantize n2 v2 d fs paths sched2 _)).
  simpl in *. congruence.
Qed.

(** X22. A whole run does not depend on them either: two runs of [main] on
    the same command line and file system, with any numbers of processing
    units and any schedules that let [wg.Wait()] return, end the same way,
    leave the same file system and have opened the same files, in some
    order. *)
Theorem run_does_not_depend_on_schedule jpeg_Decode Quantize gif_EncodeAll n1 n2
    f other sched1 sched2 fs :
  exit (main jpeg_Decode Quantize gif_EncodeAll n1 f other sched1 fs) ≠ Blocked ->
  exit (main jpeg_Decode Quantize gif_EncodeAll n2 f other sched2 fs) ≠ Blocked ->
  exit (main jpeg_Decode Quantize gif_EncodeAll n1 f other sched1 fs)
  = exit (main jpeg_Decode Quantize gif_EncodeAll n2 f other sched2 fs)
  ∧ fs_after (main jpeg_Decode Quantize gif_EncodeAll n1 f other sched1 fs)
    = fs_after (main jpeg_Decode Quantize gif_EncodeAll n2 f other sched2 fs)
  ∧ opened (main jpeg_Decode Quantize gif_EncodeAll n1 f other sched1 fs)
    ≡ₚ opened (main jpeg_Decode Quantize gif_EncodeAll n2 f other sched2 fs).
Proof.
  intros B1 B2.
  destruct (version f) eqn:Hv; [unfold main; by rewrite Hv|].
  destruct (os_IsNotExist (os_Stat fs (outfile f)).2) eqn:Hs;
    [|unfold main; by rewrite Hv, Hs].
  destruct (args f) as [|dirname [|]] eqn:Ha;
    [unfold main; by rewrite Hv, Hs, Ha| |unfold main; by rewrite Hv, Hs, Ha].
  destruct (Walk (collect (verbose f)) fs dirname ([], startup f))
    as [[[err|] [imgPaths ev]]|] eqn:Hw;
    [unfold main; by rewrite Hv, Hs, Ha, Hw| |unfold main; by rewrite Hv, Hs, Ha, Hw].
  destruct (decide (imgPaths = [])) as [->|Hne].
  { unfold main. by rewrite Hv, Hs, Ha, Hw. }
  rewrite (main_reaches_assemble jpeg_Decode Quantize gif_EncodeAll n1
             _ _ _ _ _ _ _ Hv Hs Ha Hw Hne) in *.
  rewrite (main_reaches_assemble jpeg_Decode Quantize gif_EncodeAll n2
             _ _ _ _ _ _ _ Hv Hs Ha Hw Hne) in *.
  destruct (joined (run jpeg_Decode Quantize n1 (verbose f) (delayMs f) fs imgPaths sched1
                      (pipeline_init imgPaths))) eqn:J1;
    [|by rewrite assemble_blocked in B1].
  destruct (joined (run jpeg_Decode Quantize n2 (verbose f) (delayMs f) fs imgPaths sched2
                      (pipeline_init imgPaths))) eqn:J2;
    [|by rewrite assemble_blocked in B2].
  rewrite !assemble_exit by done.
  destruct (assemble_joined jpeg_Decode Quantize gif_EncodeAll n1 f other sched1 fs
              imgPaths ev J1) as (-> & P1 & _).
  destruct (assemble_joined jpeg_Decode Quantize gif_EncodeAll n2 f other sched2 fs
              imgPaths ev J2) as (-> & P2 & _).
  repeat split; try done. by rewrite P1, P2.
Qed.


(** ** The further theorems on the sample data *)

Lemma pipeline_never_deadlocks_witness :
  exists t s',
    step Sample.decode Sample.quantize 2 false 100 Sample.pics Sample.pics_paths t
      (run Sample.decode Sample.quantize 2 false 100 Sample.pics Sample.pics_paths
         Sample.crowded (pipeline_init Sample.pics_paths))
    = Some s'.
Proof.
  apply (pipeline_never_deadlocks Sample.decode Sample.quantize 2 false 100
           Sample.pics Sample.pics_paths Sample.crowded); [lia|reflexivity].
Defined.

Lemma every_path_is_decoded_once_witness :
  decoded (run Sample.decode Sample.quantize 2 false 100 Sample.pics Sample.pics_paths
             Sample.sched (pipeline_init Sample.pics_paths)) ≡ₚ Sample.pics_paths
  ∧ length (decoded (run Sample.decode Sample.quantize 2 false 100 Sample.pics
                       Sample.pics_paths Sample.sched (pipeline_init Sample.pics_paths)))
    = length Sample.pics_paths.
Proof.
  apply (every_path_is_decoded_once Sample.decode Sample.quantize 2 false 100
           Sample.pics Sample.pics_paths Sample.sched). reflexivity.
Defined.

Lemma progress_bar_is_full_witness :
  bar (run Sample.decode Sample.quantize 2 false 100 Sample.pics Sample.pics_paths
         Sample.sched (pipeline_init Sample.pics_paths)) = 3
  ∧ wg (run Sample.decode Sample.quantize 2 false 100 Sample.pics Sample.pics_paths
          Sample.sched (pipeline_init Sample.pics_paths)) = 0.
Proof.
  apply (progress_bar_is_full Sample.decode Sample.quantize 2 false 100
           Sample.pics Sample.pics_paths Sample.sched). reflexivity.
Defined.

Lemma failures_are_logged_witness :
  occurrences is_report
    (events (run Sample.decode Sample.quantize 2 false 100 Sample.pics Sample.pics_paths
               Sample.sched (pipeline_init Sample.pics_paths))) = 1.
Proof.
  apply (failures_are_logged Sample.decode Sample.quantize 2 false 100
           Sample.pics Sample.pics_paths Sample.sched). reflexivity.
Defined.

Lemma collected_paths_are_eligible_witness :
  Forall (fun q => is_jpeg q = true) Sample.good_paths.
Proof.
  apply (collected_paths_are_eligible false Sample.good "pics" [] Sample.good_paths []).
  reflexivity.
Defined.

Lemma eligibility_is_by_extension_witness :
  is_jpeg (Join "pics" "b.JPG") = is_jpeg "b.JPG".
Proof.
  apply (eligibility_is_by_extension "pics" "b.JPG"). reflexivity.
Defined.

Lemma nil_slot_means_failure_witness :
  Image (gifInfo (run Sample.decode Sample.quantize 2 false 100 Sample.pics
                    Sample.pics_paths Sample.sched (pipeline_init Sample.pics_paths)))
    !! 1%nat = Some None
  <-> failed Sample.decode Sample.quantize Sample.pics "pics/b.JPEG" = true
      ∨ exists bytes, os_Open Sample.pics "pics/b.JPEG" = inl (inr bytes)
                      ∧ Sample.decode bytes = inl (image.IsPaletted None).
Proof.
  apply (nil_slot_means_failure Sample.decode Sample.quantize 2 false 100
           Sample.pics Sample.pics_paths Sample.sched 1%nat "pics/b.JPEG");
    reflexivity.
Defined.

Lemma output_holds_the_encoding_witness :
  fs_find (fs_after (main Sample.decode Sample.quantize Sample.encode 2 Sample.flags id
                       Sample.sched Sample.good)) "output.gif"
  = Some (Reg (Some [x47; x49; x46])).
Proof.
  apply (output_holds_the_encoding Sample.decode Sample.quantize Sample.encode 2
           Sample.flags id Sample.sched Sample.good "pics" Sample.good_paths []
           (Sample.good ++ [("output.gif", Reg (Some []))]));
    first [reflexivity | discriminate].
Defined.

Lemma old_tail_survives_witness :
  fs_find (fs_after (main Sample.decode Sample.quantize Sample.encode 2 Sample.flags
                       Sample.racing Sample.sched Sample.good)) "output.gif"
  = Some (Reg (Some [x47; x49; x46; x04])).
Proof.
  apply (old_tail_survives Sample.decode Sample.quantize Sample.encode 2
           Sample.flags Sample.racing Sample.sched Sample.good "pics" Sample.good_paths []
           [x01; x02; x03; x04] (Sample.racing Sample.good));
    first [reflexivity | discriminate].
Defined.

Lemma nothing_written_before_decoding_witness :
  exists dirname imgPaths ev,
    args Sample.flags = [dirname]
    ∧ Walk (collect (verbose Sample.flags)) Sample.good dirname ([], startup Sample.flags)
      = Some (None, (imgPaths, ev))
    ∧ imgPaths ≠ []
    ∧ opened (main Sample.decode Sample.quantize Sample.encode 2 Sample.flags id
                Sample.sched Sample.good) ≡ₚ imgPaths.
Proof.
  apply (nothing_written_before_decoding Sample.decode Sample.quantize Sample.encode 2
           Sample.flags id Sample.sched Sample.good).
  intros H. apply (f_equal length) in H. vm_compute in H. discriminate H.
Defined.

Lemma earlier_main_agrees_witness :
  main_001 Sample.decode Sample.quantize Sample.encode 2 "giffer" Sample.flags id
    Sample.sched Sample.good
  = main Sample.decode Sample.quantize Sample.encode 2 Sample.flags id Sample.sched
      Sample.good.
Proof.
  apply (earlier_main_agrees Sample.decode Sample.quantize Sample.encode 2 "giffer"
           Sample.flags id Sample.sched Sample.good "pics"); [reflexivity|reflexivity|].
  intros ev H. vm_compute in H. discriminate H.
Defined.

Lemma earlier_main_creates_empty_output_witness :
  exists data,
    fs_find (fs_after (main_001 Sample.decode Sample.quantize Sample.encode 2 "giffer"
                         Sample.flags id [Main] Sample.empty_dir)) "output.gif"
    = Some (Reg data).
Proof.
  apply (earlier_main_creates_empty_output Sample.decode Sample.quantize Sample.encode 2
           "giffer" Sample.flags id [Main] Sample.empty_dir "pics" []
           (Sample.empty_dir ++ [("output.gif", Reg (Some []))]));
    reflexivity.
Defined.

Lemma slots_do_not_depend_on_schedule_witness :
  gifInfo (run Sample.decode Sample.quantize 1 false 100 Sample.pics Sample.pics_paths
             Sample.serial (pipeline_init Sample.pics_paths))
  = gifInfo (run Sample.decode Sample.quantize 2 true 100 Sample.pics Sample.pics_paths
               Sample.sched (pipeline_init Sample.pics_paths)).
Proof.
  apply slots_do_not_depend_on_schedule; reflexivity.
Defined.

Lemma run_does_not_depend_on_schedule_witness :
  fs_after (main Sample.decode Sample.quantize Sample.encode 1 Sample.flags id
              Sample.serial Sample.good)
  = fs_after (main Sample.decode Sample.quantize Sample.encode 2 Sample.flags id
                Sample.sched Sample.good).
Proof.
  apply (run_does_not_depend_on_schedule Sample.decode Sample.quantize Sample.encode 1 2
           Sample.flags id Sample.serial Sample.sched Sample.good);
    vm_compute; discriminate.
Defined.
